(** * TicTacToe: the game logic of resources/js/main.js

    A shallow embedding of the [TicTacToe] class (board state, move
    validation, outcome classification and the minimax search with
    alpha-beta pruning), followed by the properties proved about it.

    Conventions of the embedding:
    - a JavaScript array of cells is a [list string]; the empty string is
      the empty cell (the only falsy string, so [!board[i]] and
      [board[i] === ""] agree on cells);
    - reading an array out of range yields [undefined], so a read produces
      a [JsVal];
    - a method that assigns to [this] returns the updated instance;
    - the recursive search mutates the array it is given, so it takes the
      array and returns it together with its result;
    - the recursion of the search is bounded by a [fuel] argument; running
      out of fuel ([None]) stands for the unbounded recursion of the
      source. *)

From Stdlib Require Import ZArith Ascii String List Bool Arith Lia Sorted.
From stdpp Require Import base list.
Import ListNotations.

Local Open Scope string_scope.
Local Open Scope list_scope.
Local Open Scope Z_scope.

(** ** Values read from an array *)

Inductive JsVal : Type :=
  | undefined
  | str (s : string).

(** The [===] operator on values that are strings or [undefined]. *)
Definition strictEq (a b : JsVal) : bool :=
  match a, b with
  | undefined, undefined => true
  | str s, str t => String.eqb s t
  | _, _ => false
  end.

(** [board[i]] *)
Definition get (board : list string) (i : nat) : JsVal :=
  match board !! i with
  | Some c => str c
  | None => undefined
  end.

(** ** Static members *)

Definition MIN : Z := -1000.
Definition MAX : Z := 1000.
Definition WIN_SCORE : Z := 10.
Definition TIE_SCORE : Z := 0.
Definition LOSE_SCORE : Z := -10.

(** The object returned by [isGameOver]: its ["result"] tag ([WIN], [TIE]
    or [CONTINUE]) with the properties that come with the tag. *)
Inductive GameResult : Type :=
  | WIN (player : JsVal) (slots : list nat)
  | TIE
  | CONTINUE (slots : list nat).

(** The two errors thrown by [play]:
    "Game over! Please reset the board" and "<slot> is not a valid slot." *)
Inductive Error : Type :=
  | InvalidStateError
  | InvalidMoveError (slot : Z).

Inductive Completion (A : Type) : Type :=
  | Return (a : A)
  | Throw (e : Error).
Arguments Return {A} a.
Arguments Throw {A} e.

(** ** The instance *)

Record TicTacToe : Type := {
  board : list string;
  humanPlayer : string;
  computerPlayer : string;
  gameOver : bool
}.

Definition initialize (self : TicTacToe) : TicTacToe :=
  {| board := [""; ""; ""; ""; ""; ""; ""; ""; ""];
     humanPlayer := humanPlayer self;
     computerPlayer := computerPlayer self;
     gameOver := false |}.

Definition constructor : TicTacToe :=
  initialize {| board := []; humanPlayer := "O"; computerPlayer := "X";
                gameOver := false |}.

Definition reset (self : TicTacToe) : TicTacToe := initialize self.

(** ** getAvailableSlots *)

(** The loop [for (let i=0; i<board.length; i++)], started at index [i]
    with the cells from [i] on still to visit. *)
Fixpoint availableFrom (i : nat) (cells : list string) : list nat :=
  match cells with
  | [] => []
  | c :: rest =>
      if String.eqb c "" then i :: availableFrom (S i) rest
      else availableFrom (S i) rest
  end.

(** [if (!board) board = this.board]: an array is never falsy, so the
    instance's own board is used exactly when the argument is absent. *)
Definition boardOrOwn (self : TicTacToe) (board_arg : option (list string))
  : list string :=
  match board_arg with
  | Some b => b
  | None => board self
  end.

Definition getAvailableSlots (self : TicTacToe) (board_arg : option (list string))
  : list nat :=
  let board := boardOrOwn self board_arg in
  availableFrom 0%nat board.

(** ** isValidSlot *)

Definition isValidSlot (self : TicTacToe) (slot : Z) : bool :=
  (0 <=? slot) && (slot <? Z.of_nat (length (board self)))
  && strictEq (get (board self) (Z.to_nat slot)) (str "").

(** ** isGameOver *)

(** [slots.every((val, i, arr) => val === arr[0]) && slots[0] !== ""] *)
Definition won (slots : list JsVal) : bool :=
  forallb (fun val => strictEq val (hd undefined slots)) slots
  && negb (strictEq (hd undefined slots) (str "")).

(** One of the three checking loops: the lines are tried in order and the
    first one that is won is returned. *)
Fixpoint checkLines (board : list string) (lines : list (list nat))
  : option GameResult :=
  match lines with
  | [] => None
  | indices :: rest =>
      let slots := map (get board) indices in
      if won slots then Some (WIN (hd undefined slots) indices)
      else checkLines board rest
  end.

(** The values of [i] in [for (let i=0; i<n; i=i+3)]. *)
Definition rowStarts (n : nat) : list nat :=
  map (fun k => (3 * k)%nat) (seq 0 (Nat.div (n + 2) 3)).

Definition rowLines (n : nat) : list (list nat) :=
  map (fun i => [i; i + 1; i + 2]%nat) (rowStarts n).

Definition colLines : list (list nat) :=
  map (fun i => [i; i + 3; i + 6]%nat) (seq 0 3).

Definition diagLines : list (list nat) := [[0; 4; 8]; [2; 4; 6]]%nat.

Definition isGameOver (self : TicTacToe) (board_arg : option (list string))
  : GameResult :=
  let board := boardOrOwn self board_arg in
  match checkLines board (rowLines (length board)) with
  | Some r => r
  | None =>
  match checkLines board colLines with
  | Some r => r
  | None =>
  match checkLines board diagLines with
  | Some r => r
  | None =>
      let availableSlots := getAvailableSlots self (Some board) in
      if Nat.eqb (length availableSlots) 0 then TIE
      else CONTINUE availableSlots
  end end end.

(** [result["result"] !== TicTacToe.CONTINUE] *)
Definition notContinue (r : GameResult) : bool :=
  match r with
  | CONTINUE _ => false
  | _ => true
  end.

(** ** play *)

Definition play (self : TicTacToe) (slot : Z) (player : string)
  : TicTacToe * Completion GameResult :=
  if gameOver self then (self, Throw InvalidStateError)
  else if negb (isValidSlot self slot) then (self, Throw (InvalidMoveError slot))
  else
    let self1 := {| board := <[Z.to_nat slot := player]> (board self);
                    humanPlayer := humanPlayer self;
                    computerPlayer := computerPlayer self;
                    gameOver := gameOver self |} in
    let result := isGameOver self1 None in
    let self2 := if notContinue result
                 then {| board := board self1;
                         humanPlayer := humanPlayer self1;
                         computerPlayer := computerPlayer self1;
                         gameOver := true |}
                 else self1 in
    (self2, Return result).

(** ** minimax *)

(** The object returned by [minimax]: [{}], [{"score": _}] or
    [{"slot": _, "score": _}]; an absent property reads as [undefined]. *)
Record Move : Type := {
  slot : option nat;
  score : option Z
}.

Definition emptyMove : Move := {| slot := None; score := None |}.

(** [result["score"] > bestScore]: a comparison with [undefined] is false. *)
Definition scoreGt (s : option Z) (bestScore : Z) : bool :=
  match s with
  | Some x => bestScore <? x
  | None => false
  end.

(** [result["score"] < bestScore] *)
Definition scoreLt (s : option Z) (bestScore : Z) : bool :=
  match s with
  | Some x => x <? bestScore
  | None => false
  end.

(** [bestScore = result["score"]] under a comparison that succeeded. *)
Definition scoreVal (s : option Z) (bestScore : Z) : Z :=
  match s with
  | Some x => x
  | None => bestScore
  end.

(** The loop [for (const slot of game_result["slots"])] of [minimax]. The
    recursive call is the parameter [rec]; the array, the best move so far,
    the best score, alpha and beta are the variables the loop updates. *)
Definition minimaxLoop
    (rec : list string -> string -> Z -> Z -> nat -> option (list string * Move))
    (self : TicTacToe) (player : string) (depth : nat)
  : list nat -> list string -> Move -> Z -> Z -> Z ->
    option (list string * Move) :=
  fix loop slots board bestMove bestScore alpha beta :=
    match slots with
    | [] => Some (board, bestMove)
    | slot :: rest =>
        let board := <[slot := player]> board in
        if String.eqb player (computerPlayer self) then
          match rec board (humanPlayer self) alpha beta (S depth) with
          | None => None
          | Some (board, result) =>
              let upd := scoreGt (score result) bestScore in
              let bestScore :=
                if upd then scoreVal (score result) bestScore else bestScore in
              let bestMove :=
                if upd then {| slot := Some slot; score := Some bestScore |}
                else bestMove in
              let alpha := Z.max alpha bestScore in
              let board := <[slot := ""]> board in
              if beta <=? alpha then Some (board, bestMove)
              else loop rest board bestMove bestScore alpha beta
          end
        else
          match rec board (computerPlayer self) alpha beta (S depth) with
          | None => None
          | Some (board, result) =>
              let upd := scoreLt (score result) bestScore in
              let bestScore :=
                if upd then scoreVal (score result) bestScore else bestScore in
              let bestMove :=
                if upd then {| slot := Some slot; score := Some bestScore |}
                else bestMove in
              let beta := Z.min beta bestScore in
              let board := <[slot := ""]> board in
              if beta <=? alpha then Some (board, bestMove)
              else loop rest board bestMove bestScore alpha beta
          end
    end.

Fixpoint minimax (fuel : nat) (self : TicTacToe) (board : list string)
    (player : string) (alpha beta : Z) (depth : nat) {struct fuel}
  : option (list string * Move) :=
  match fuel with
  | O => None
  | S fuel' =>
      match isGameOver self (Some board) with
      | WIN winner _ =>
          let score := if strictEq winner (str (computerPlayer self))
                       then WIN_SCORE else LOSE_SCORE in
          Some (board, {| slot := None; score := Some score |})
      | TIE => Some (board, {| slot := None; score := Some TIE_SCORE |})
      | CONTINUE slots =>
          let bestScore :=
            if String.eqb player (computerPlayer self) then MIN else MAX in
          minimaxLoop (minimax fuel' self) self player depth
            slots board emptyMove bestScore alpha beta
      end
  end.

(** ** getNextBestSlot *)

(** The search works on [this.board.slice()], a copy, so the instance is
    not touched; the depth of the recursion is at most the number of cells,
    which is the fuel given here. The result is [move["slot"]]. *)
Definition getNextBestSlot (self : TicTacToe) : option (TicTacToe * option nat) :=
  let board := board self in
  match minimax (S (length board)) self board (computerPlayer self) MIN MAX 0 with
  | Some (_, move) => Some (self, slot move)
  | None => None
  end.

(** ** Unpruned reference search

    The search as the specification describes it, without alpha and beta:
    every available slot is tried in ascending order on a board with the
    mover's mark placed, the opponent answers, and the first best-scoring
    slot is kept (strict comparisons). *)

Definition RefMove : Type := (option nat * Z)%type.

Definition refLoop (rec : list string -> string -> option RefMove)
    (self : TicTacToe) (player : string) (board : list string)
  : list nat -> option nat -> Z -> option RefMove :=
  fix loop slots bestSlot bestScore :=
    match slots with
    | [] => Some (bestSlot, bestScore)
    | slot :: rest =>
        if String.eqb player (computerPlayer self) then
          match rec (<[slot := player]> board) (humanPlayer self) with
          | None => None
          | Some (_, s) =>
              if bestScore <? s then loop rest (Some slot) s
              else loop rest bestSlot bestScore
          end
        else
          match rec (<[slot := player]> board) (computerPlayer self) with
          | None => None
          | Some (_, s) =>
              if s <? bestScore then loop rest (Some slot) s
              else loop rest bestSlot bestScore
          end
    end.

Fixpoint minimaxRef (fuel : nat) (self : TicTacToe) (board : list string)
    (player : string) {struct fuel} : option RefMove :=
  match fuel with
  | O => None
  | S fuel' =>
      match isGameOver self (Some board) with
      | WIN winner _ =>
          Some (None, if strictEq winner (str (computerPlayer self))
                      then WIN_SCORE else LOSE_SCORE)
      | TIE => Some (None, TIE_SCORE)
      | CONTINUE slots =>
          refLoop (minimaxRef fuel' self) self player board slots None
            (if String.eqb player (computerPlayer self) then MIN else MAX)
      end
  end.

(** ** Positions reachable by alternating legal play *)

Definition opponent (self : TicTacToe) (player : string) : string :=
  if String.eqb player (computerPlayer self) then humanPlayer self
  else computerPlayer self.

(** [reachable self b p]: the board [b] arises from the empty board by
    legal moves of the two players of [self] in turn, either of them
    moving first, no move being made after the game is over; [p] is the
    player to move. *)
Inductive reachable (self : TicTacToe) : list string -> string -> Prop :=
  | reachable_start_computer :
      reachable self (board (initialize self)) (computerPlayer self)
  | reachable_start_human :
      reachable self (board (initialize self)) (humanPlayer self)
  | reachable_move b p slots s :
      reachable self b p ->
      isGameOver self (Some b) = CONTINUE slots ->
      In s slots ->
      reachable self (<[s := p]> b) (opponent self p).

(** ** Self-play

    Both sides take their move from the search. The search maximizes for
    [computerPlayer], so the side to move holds that role while it
    searches, and its opponent the other one. *)

Definition sideEngine (self : TicTacToe) (p q : string) : TicTacToe :=
  {| board := board self; humanPlayer := q; computerPlayer := p;
     gameOver := gameOver self |}.

Inductive SelfPlayOutcome : Type :=
  | Finished (self : TicTacToe) (r : GameResult)
  | Failed
  | OutOfMoves.

(** At most [n] moves: [p] moves first, then [q], in turn, each playing the
    slot that [getNextBestSlot] gives it, until [play] reports the end. *)
Fixpoint selfPlay (n : nat) (self : TicTacToe) (p q : string) : SelfPlayOutcome :=
  match n with
  | O => OutOfMoves
  | S n' =>
      match getNextBestSlot (sideEngine self p q) with
      | Some (self1, Some bestSlot) =>
          match play self1 (Z.of_nat bestSlot) p with
          | (self2, Return (CONTINUE _)) => selfPlay n' self2 q p
          | (self2, Return r) => Finished self2 r
          | (_, Throw _) => Failed
          end
      | _ => Failed
      end
  end.

(** The number of cells that are not empty. *)
Definition countNonEmpty (board : list string) : nat :=
  length (List.filter (fun c => negb (String.eqb c "")) board).

(** The eight lines in the order in which [isGameOver] tries them on a
    board of nine cells: rows, columns, diagonals. *)
Definition winningLines : list (list nat) :=
  rowLines 9 ++ colLines ++ diagLines.

(** ** States of an instance

    The instances that arise from [constructor] by calls of [reset] and
    [play], a call of [play] that throws leaving the instance as it is. *)
Inductive engineState : TicTacToe -> Prop :=
  | engine_new : engineState constructor
  | engine_reset self : engineState self -> engineState (reset self)
  | engine_play self slot player :
      engineState self -> engineState (fst (play self slot player)).

(** ** Vocabulary of the statements *)

(** The sentinel a node starts its best score from. *)
Definition startScore (self : TicTacToe) (player : string) : Z :=
  if String.eqb player (computerPlayer self) then MIN else MAX.

(** A call of the search that comes back with the array [b] and a score in
    range. *)
Definition returnsScore (res : option (list string * Move)) (b : list string)
  : Prop :=
  exists m r, res = Some (b, m) /\ score m = Some r /\ -10 <= r <= 10.

(** [abContract alpha beta r v sm sr] relates the score [r] and slot [sm]
    that the pruned search returns in the window [(alpha, beta)] to the
    score [v] and slot [sr] of the unpruned search: inside the window they
    coincide; outside, [r] is a bound of [v] on the same side. *)
Definition abContract (alpha beta r v : Z) (sm sr : option nat) : Prop :=
  (v <= alpha -> v <= r <= alpha) /\
  (beta <= v -> beta <= r <= v) /\
  (alpha < v < beta -> r = v /\ sm = sr).

(** Both searches return on the array [b], and their results are related
    by [abContract]. *)
Definition agree (res : option (list string * Move)) (ref : option RefMove)
    (b : list string) (alpha beta : Z) : Prop :=
  exists m r sr v,
    res = Some (b, m) /\ score m = Some r /\ ref = Some (sr, v) /\
    -10 <= r <= 10 /\ -10 <= v <= 10 /\
    abContract alpha beta r v (slot m) sr.

Definition refReturns (ref : option RefMove) : Prop :=
  exists sr v, ref = Some (sr, v) /\ -10 <= v <= 10.

(** The unpruned score of the position that [player] reaches from [b] by
    marking the slot [s]. *)
Definition childScore (fuel : nat) (self : TicTacToe) (b : list string)
    (player : string) (s : nat) : Z :=
  match minimaxRef fuel self (<[s := player]> b) (opponent self player) with
  | Some (_, v) => v
  | None => 0
  end.

(** A line filled with one same mark that is not the empty one. *)
Definition filledBy (b : list string) (l : list nat) (q : string) : Prop :=
  q <> "" /\ forall i, In i l -> b !! i = Some q.

Definition complete (b : list string) (l : list nat) : Prop :=
  exists q, filledBy b l q.

(** ** display *)

(** A value inside a template literal. *)
Definition show (v : JsVal) : string :=
  match v with
  | undefined => "undefined"
  | str s => s
  end.

(** The lines that [display] passes to [console.log], in order: one for
    each value of [i] in [for (let i=0; i<this.board.length; i=i+3)]. *)
Definition display (self : TicTacToe) : list string :=
  map (fun i =>
         ("|" ++ show (get (board self) i) ++ ","
              ++ show (get (board self) (i + 1)) ++ ","
              ++ show (get (board self) (i + 2)) ++ "|")%string)
      (rowStarts (length (board self))).

(** No comma in a string. *)
Fixpoint commaFree (s : string) : bool :=
  match s with
  | EmptyString => true
  | String c s' => negb (Ascii.eqb c ","%char) && commaFree s'
  end.

(** ** Gameplay and events

    The functions below the class. The document is not among the sources;
    what the functions use of it is kept in [Page]: the elements of class
    "game-cell" in document order, each with its [id] as [parseInt] reads
    it and its text, the text of the feedback box, whether the restart
    button carries the class "d-none", the global [gameOver] that
    [cellClicked] assigns, and what was logged to the console. A cell is
    referred to by its index in [cells]; [None] is [undefined]. *)

Module Gameplay.

Record Cell : Type := {
  id : Z;
  textContent : string
}.

Inductive LogEntry : Type :=
  | LogError (err : Error)
  | LogTypeError.

Record Page : Type := {
  GAME : TicTacToe;
  cells : list Cell;
  feedbackBox : string;
  restartGameButton_dnone : bool;
  gameOverGlobal : option bool;
  console : list LogEntry
}.

Definition withGAME (g : TicTacToe) (pg : Page) : Page :=
  {| GAME := g; cells := cells pg; feedbackBox := feedbackBox pg;
     restartGameButton_dnone := restartGameButton_dnone pg;
     gameOverGlobal := gameOverGlobal pg; console := console pg |}.

Definition withCells (cs : list Cell) (pg : Page) : Page :=
  {| GAME := GAME pg; cells := cs; feedbackBox := feedbackBox pg;
     restartGameButton_dnone := restartGameButton_dnone pg;
     gameOverGlobal := gameOverGlobal pg; console := console pg |}.

Definition withGameOverGlobal (v : bool) (pg : Page) : Page :=
  {| GAME := GAME pg; cells := cells pg; feedbackBox := feedbackBox pg;
     restartGameButton_dnone := restartGameButton_dnone pg;
     gameOverGlobal := Some v; console := console pg |}.

(** [console.log(err)] *)
Definition log (entry : LogEntry) (pg : Page) : Page :=
  {| GAME := GAME pg; cells := cells pg; feedbackBox := feedbackBox pg;
     restartGameButton_dnone := restartGameButton_dnone pg;
     gameOverGlobal := gameOverGlobal pg; console := console pg ++ [entry] |}.

Definition updateFeedback (msg : string) (pg : Page) : Page :=
  {| GAME := GAME pg; cells := cells pg; feedbackBox := msg;
     restartGameButton_dnone := restartGameButton_dnone pg;
     gameOverGlobal := gameOverGlobal pg; console := console pg |}.

(** [classList.remove("d-none")] when [status] holds, [classList.add]
    otherwise. *)
Definition displayRestartButton (status : bool) (pg : Page) : Page :=
  {| GAME := GAME pg; cells := cells pg; feedbackBox := feedbackBox pg;
     restartGameButton_dnone := negb status;
     gameOverGlobal := gameOverGlobal pg; console := console pg |}.

Definition clearCells (pg : Page) : Page :=
  withCells (map (fun cell => {| id := id cell; textContent := "" |}) (cells pg)) pg.

(** The element a cell argument stands for, with its index. *)
Definition element (pg : Page) (cell : option nat) : option (nat * Cell) :=
  match cell with
  | Some k =>
      match cells pg !! k with
      | Some c => Some (k, c)
      | None => None
      end
  | None => None
  end.

(** [play(cell, player)]. Reading [cell.id] of [undefined] throws inside
    the [try], as a failing [GAME.play] does; both are logged. *)
Definition play (cell : option nat) (player : string) (pg : Page) : Page * bool :=
  match element pg cell with
  | None => (log LogTypeError pg, false)
  | Some (k, c) =>
      match play (GAME pg) (id c) player with
      | (_, Throw err) => (log (LogError err) pg, false)
      | (game, Return result) =>
          let pg :=
            withCells (<[k := {| id := id c; textContent := player |}]> (cells pg))
                      (withGAME game pg) in
          if negb (gameOver (GAME pg)) then
            (displayRestartButton true (updateFeedback "Game in progress" pg), false)
          else
            let msg :=
              match result with
              | WIN winner _ =>
                  ((if strictEq winner (str (humanPlayer (GAME pg)))
                    then "Human" else "Computer") ++ " won!!")%string
              | _ => "Game Tie"
              end in
            (updateFeedback msg pg, true)
      end
  end.

(** [cellClicked(e)], [e.target] being the cell of index [target]. [None]
    stands for a search that does not return. *)
Definition cellClicked (target : nat) (pg : Page) : option Page :=
  let pg := fst (play (Some target) (humanPlayer (GAME pg)) pg) in
  if gameOver (GAME pg) then Some pg
  else
    match getNextBestSlot (GAME pg) with
    | None => None
    | Some (game, bestSlot) =>
        let '(pg, r) := play bestSlot (computerPlayer game) (withGAME game pg) in
        Some (withGameOverGlobal r pg)
    end.

Definition restartGame (pg : Page) : Page :=
  clearCells
    (displayRestartButton false
       (updateFeedback "Tic Tac Toe" (withGAME (reset (GAME pg)) pg))).

(** The script's last two statements, run on the document as it was
    written: [const GAME = new TicTacToe(); restartGame();]. *)
Definition load (cells0 : list Cell) (feedback0 : string) (dnone0 : bool) : Page :=
  restartGame
    {| GAME := constructor; cells := cells0; feedbackBox := feedback0;
       restartGameButton_dnone := dnone0; gameOverGlobal := None;
       console := [] |}.

(** The pages that arise after loading by clicks on cells and on the
    restart button. *)
Inductive pageState (cells0 : list Cell) (feedback0 : string) (dnone0 : bool)
  : Page -> Prop :=
  | page_loaded : pageState cells0 feedback0 dnone0 (load cells0 feedback0 dnone0)
  | page_restart pg :
      pageState cells0 feedback0 dnone0 pg ->
      pageState cells0 feedback0 dnone0 (restartGame pg)
  | page_click pg target pg' :
      pageState cells0 feedback0 dnone0 pg ->
      (target < length (cells pg))%nat ->
      cellClicked target pg = Some pg' ->
      pageState cells0 feedback0 dnone0 pg'.

End Gameplay.

(** A document with nine cells whose ids are 0 to 8, in order. *)
Definition nineCells (cs : list Gameplay.Cell) : Prop :=
  map Gameplay.id cs = [0; 1; 2; 3; 4; 5; 6; 7; 8].

(** The text that [Gameplay.play] puts into the feedback box for the
    state of a game. *)
Definition statusText (g : TicTacToe) : string :=
  match isGameOver g None with
  | WIN winner _ =>
      ((if strictEq winner (str (humanPlayer g)) then "Human" else "Computer")
       ++ " won!!")%string
  | TIE => "Game Tie"
  | CONTINUE _ => "Game in progress"
  end.

(** ** The game as [cellClicked] drives it

    What a click does to the instance when the cell clicked has the id
    [slot] and the cell of index [s] has the id [s]: the human's move,
    then, unless the game is over, the computer's reply. *)
Definition gameStep (g : TicTacToe) (slot : Z) : option TicTacToe :=
  let g1 := fst (play g slot (humanPlayer g)) in
  if gameOver g1 then Some g1
  else
    match getNextBestSlot g1 with
    | Some (g2, Some s) => Some (fst (play g2 (Z.of_nat s) (computerPlayer g2)))
    | Some (g2, None) => Some g2
    | None => None
    end.

Inductive gameState : TicTacToe -> Prop :=
  | game_new : gameState constructor
  | game_reset g : gameState g -> gameState (reset g)
  | game_step g slot g' :
      gameState g -> gameStep g slot = Some g' -> gameState g'.

(** [isGameOver] reports a win of the human player. *)
Definition humanWon (g : TicTacToe) : bool :=
  match isGameOver g None with
  | WIN winner _ => strictEq winner (str (humanPlayer g))
  | _ => false
  end.

(** *** Enumeration of the game states *)

Fixpoint boardEqb (a b : list string) : bool :=
  match a, b with
  | [], [] => true
  | x :: a', y :: b' => String.eqb x y && boardEqb a' b'
  | _, _ => false
  end.

Definition instanceEqb (a b : TicTacToe) : bool :=
  boardEqb (board a) (board b)
  && String.eqb (humanPlayer a) (humanPlayer b)
  && String.eqb (computerPlayer a) (computerPlayer b)
  && Bool.eqb (gameOver a) (gameOver b).

Definition member (g : TicTacToe) (l : list TicTacToe) : bool :=
  existsb (instanceEqb g) l.

(** One slot that is never valid, and the valid ones. *)
Definition clicksOf (g : TicTacToe) : list Z :=
  -1 :: map Z.of_nat (getAvailableSlots g None).

Definition successors (g : TicTacToe) : list TicTacToe :=
  flat_map (fun slot => match gameStep g slot with
                        | Some g' => [g']
                        | None => []
                        end)
           (clicksOf g).

Fixpoint addNew (new seen : list TicTacToe) : list TicTacToe * list TicTacToe :=
  match new with
  | [] => ([], seen)
  | g :: rest =>
      if member g seen then addNew rest seen
      else let '(fresh, seen') := addNew rest (g :: seen) in (g :: fresh, seen')
  end.

Fixpoint explore (fuel : nat) (frontier seen : list TicTacToe) : list TicTacToe :=
  match fuel with
  | O => seen
  | S fuel' =>
      let '(fresh, seen') := addNew (flat_map successors frontier) seen in
      match fresh with
      | [] => seen'
      | _ => explore fuel' fresh seen'
      end
  end.

(** The states found from [constructor]. *)
Definition allStates : list TicTacToe :=
  Eval vm_compute in explore 12 [constructor] [constructor].

(** What is asked of each state of the enumeration: the human player has
    not won, there are nine cells, each empty or holding "O" or "X", and
    the marks are those of [constructor]. *)
Definition goodState (g : TicTacToe) : bool :=
  negb (humanWon g)
  && Nat.eqb (length (board g)) 9
  && forallb (fun c => String.eqb c "" || String.eqb c "O" || String.eqb c "X")
             (board g)
  && String.eqb (humanPlayer g) (humanPlayer constructor)
  && String.eqb (computerPlayer g) (computerPlayer constructor).

(** A list of states that holds [constructor], only good states, and with
    each state what every click makes of it. *)
Definition closedStates (states : list TicTacToe) : bool :=
  member constructor states
  && forallb (fun g =>
       goodState g
       && forallb (fun slot => match gameStep g slot with
                               | Some g' => member g' states
                               | None => false
                               end)
                  (clicksOf g))
     states.

(** ** Vocabulary of the statements about the gameplay *)

(** The board of nine empty cells. *)
Definition emptyBoard : list string := [""; ""; ""; ""; ""; ""; ""; ""; ""].

(** What holds of a page between any two calls of the gameplay functions
    on a document of nine cells: the cells keep their ids and show the
    board, which has nine cells, the flag tells whether the board is final,
    the marks are those of [constructor], the feedback box shows
    the title while the board is empty and the state of the game
    afterwards, and the restart button is hidden only while the board is
    empty. *)
Definition pageInv (pg : Gameplay.Page) : Prop :=
  nineCells (Gameplay.cells pg) /\
  map Gameplay.textContent (Gameplay.cells pg) = board (Gameplay.GAME pg) /\
  length (board (Gameplay.GAME pg)) = 9%nat /\
  gameOver (Gameplay.GAME pg)
  = notContinue (isGameOver (Gameplay.GAME pg) None) /\
  humanPlayer (Gameplay.GAME pg) = "O" /\
  computerPlayer (Gameplay.GAME pg) = "X" /\
  (Gameplay.feedbackBox pg = "Tic Tac Toe" /\
   board (Gameplay.GAME pg) = emptyBoard
   \/ Gameplay.feedbackBox pg = statusText (Gameplay.GAME pg) /\
      board (Gameplay.GAME pg) <> emptyBoard) /\
  (Gameplay.restartGameButton_dnone pg = true ->
   board (Gameplay.GAME pg) = emptyBoard).

(** The second half of [cellClicked]: the computer's reply on the page
    [pg1] that the human's move has left. *)
Definition reply (pg1 : Gameplay.Page) : option Gameplay.Page :=
  match getNextBestSlot (Gameplay.GAME pg1) with
  | None => None
  | Some (game, bestSlot) =>
      let '(pg, r) :=
        Gameplay.play bestSlot (computerPlayer game) (Gameplay.withGAME game pg1) in
      Some (Gameplay.withGameOverGlobal r pg)
  end.

(** A document of nine cells, the page it loads as, and that page after a
    click on the middle cell: the inputs of the examples. *)
Definition exampleCells : list Gameplay.Cell :=
  map (fun i => {| Gameplay.id := i; Gameplay.textContent := "-" |})
      [0; 1; 2; 3; 4; 5; 6; 7; 8].

Definition examplePage : Gameplay.Page :=
  Gameplay.load exampleCells "" false.

Definition examplePageClicked : Gameplay.Page :=
  Eval vm_compute in
    match Gameplay.cellClicked 4 examplePage with
    | Some pg => pg
    | None => examplePage
    end.

(** * Properties *)

(** ** Concrete scenarios *)

Example scenario_top_row :
  getNextBestSlot
    {| board := ["X"; "X"; ""; ""; "O"; "O"; ""; ""; ""];
       humanPlayer := "O"; computerPlayer := "X"; gameOver := false |}
  = Some ({| board := ["X"; "X"; ""; ""; "O"; "O"; ""; ""; ""];
             humanPlayer := "O"; computerPlayer := "X"; gameOver := false |},
          Some 2%nat).
Proof. vm_compute. reflexivity. Qed.

Example scenario_top_row_play :
  snd (play {| board := ["X"; "X"; ""; ""; "O"; "O"; ""; ""; ""];
               humanPlayer := "O"; computerPlayer := "X"; gameOver := false |}
            2 "X")
  = Return (WIN (str "X") [0; 1; 2]%nat).
Proof. reflexivity. Qed.

(** ** Available slots *)

Lemma availableFrom_In (cells : list string) :
  forall (i s : nat),
    In s (availableFrom i cells) <->
    (i <= s)%nat /\ cells !! (s - i)%nat = Some "".
Proof.
  induction cells as [|c rest IH]; intros i s; simpl.
  - split; [tauto | intros [_ H]; discriminate].
  - destruct (String.eqb_spec c "") as [->|Hc]; simpl; rewrite IH.
    + split.
      * intros [<- | [Hle Hl]].
        -- split; [lia | now rewrite Nat.sub_diag].
        -- split; [lia|]. replace (s - i)%nat with (S (s - S i)) by lia. exact Hl.
      * intros [Hle Hl]. destruct (s - i)%nat as [|k] eqn:E.
        -- left; lia.
        -- right. split; [lia|]. replace (s - S i)%nat with k by lia. exact Hl.
    + split.
      * intros [Hle Hl]. split; [lia|].
        replace (s - i)%nat with (S (s - S i)) by lia. exact Hl.
      * intros [Hle Hl]. destruct (s - i)%nat as [|k] eqn:E.
        -- simpl in Hl. congruence.
        -- split; [lia|]. replace (s - S i)%nat with k by lia. exact Hl.
Qed.

Lemma availableFrom_lower (cells : list string) :
  forall (i s : nat), In s (availableFrom i cells) -> (i <= s)%nat.
Proof. intros i s H. apply availableFrom_In in H. tauto. Qed.

Lemma availableFrom_sorted (cells : list string) :
  forall i : nat, StronglySorted lt (availableFrom i cells).
Proof.
  induction cells as [|c rest IH]; intros i; simpl.
  - constructor.
  - destruct (String.eqb c ""); [|apply IH].
    constructor; [apply IH|].
    apply List.Forall_forall. intros s Hs.
    apply availableFrom_lower in Hs. lia.
Qed.

Lemma availableFrom_length (cells : list string) :
  forall i : nat,
    (length (availableFrom i cells) + countNonEmpty cells)%nat = length cells.
Proof.
  unfold countNonEmpty.
  induction cells as [|c rest IH]; intros i; simpl; [reflexivity|].
  destruct (String.eqb c ""); simpl; rewrite <- (IH (S i)); lia.
Qed.

(** The number of available slots does not depend on the starting index. *)
Lemma availableFrom_length_shift (cells : list string) :
  forall i j : nat, length (availableFrom i cells) = length (availableFrom j cells).
Proof.
  intros i j.
  pose proof (availableFrom_length cells i).
  pose proof (availableFrom_length cells j). lia.
Qed.

(** Marking an empty cell removes one available slot. *)
Lemma availableFrom_insert (cells : list string) :
  forall (i k : nat) (p : string),
    cells !! k = Some "" -> p <> "" ->
    S (length (availableFrom i (<[k := p]> cells))) = length (availableFrom i cells).
Proof.
  induction cells as [|c rest IH]; intros i k p Hk Hp; [discriminate|].
  destruct k as [|k]; simpl in *.
  - injection Hk as ->. simpl.
    destruct (String.eqb_spec p "") as [->|_]; [congruence|].
    reflexivity.
  - destruct (String.eqb c ""); simpl; rewrite <- (IH (S i) k p Hk Hp); reflexivity.
Qed.

(** Emptying again a cell that was empty before it was marked gives the
    array back. *)
Lemma insert_restore (cells : list string) (k : nat) (p : string) :
  cells !! k = Some "" -> <[k := ""]> (<[k := p]> cells) = cells.
Proof.
  intros H. rewrite list_insert_insert_eq. now apply list_insert_id.
Qed.

(** ** Classification *)

Lemma checkLines_Some (b : list string) (lines : list (list nat)) (r : GameResult) :
  checkLines b lines = Some r ->
  exists indices,
    In indices lines /\ won (map (get b) indices) = true /\
    r = WIN (hd undefined (map (get b) indices)) indices.
Proof.
  induction lines as [|l rest IH]; simpl; [discriminate|].
  destruct (won (map (get b) l)) eqn:Hw.
  - intros [= <-]. exists l. auto.
  - intros H. destruct (IH H) as (i & Hi & Hwi & ->). exists i. auto.
Qed.

Lemma checkLines_None (b : list string) (lines : list (list nat)) :
  checkLines b lines = None <->
  forall indices, In indices lines -> won (map (get b) indices) = false.
Proof.
  induction lines as [|l rest IH]; simpl.
  - split; [intros _ i []|reflexivity].
  - destruct (won (map (get b) l)) eqn:Hw.
    + split; [discriminate|]. intros H. rewrite (H l) in Hw by auto. discriminate.
    + rewrite IH. split.
      * intros H i [<-|Hi]; auto.
      * intros H i Hi. auto.
Qed.

Lemma isGameOver_CONTINUE (self : TicTacToe) (b : list string) (slots : list nat) :
  isGameOver self (Some b) = CONTINUE slots ->
  slots = availableFrom 0 b /\ slots <> [].
Proof.
  unfold isGameOver, getAvailableSlots. simpl boardOrOwn.
  destruct (checkLines b (rowLines (length b))) as [r|] eqn:Hr.
  { intros ->. apply checkLines_Some in Hr as (? & _ & _ & [=]). }
  destruct (checkLines b colLines) as [r|] eqn:Hc.
  { intros ->. apply checkLines_Some in Hc as (? & _ & _ & [=]). }
  destruct (checkLines b diagLines) as [r|] eqn:Hd.
  { intros ->. apply checkLines_Some in Hd as (? & _ & _ & [=]). }
  destruct (availableFrom 0 b) as [|s l]; simpl; [discriminate|].
  intros [= <-]. split; [reflexivity | discriminate].
Qed.

(** The board argument is the only thing [isGameOver] reads when it is
    given one. *)
Lemma isGameOver_board_arg (self self' : TicTacToe) (b : list string) :
  isGameOver self (Some b) = isGameOver self' (Some b).
Proof. reflexivity. Qed.

Lemma isGameOver_default (self : TicTacToe) :
  isGameOver self None = isGameOver self (Some (board self)).
Proof. reflexivity. Qed.

Lemma winningLines_eq :
  winningLines =
  [[0; 1; 2]; [3; 4; 5]; [6; 7; 8];
   [0; 3; 6]; [1; 4; 7]; [2; 5; 8];
   [0; 4; 8]; [2; 4; 6]]%nat.
Proof. reflexivity. Qed.

Lemma checkLines_app (b : list string) (l1 l2 : list (list nat)) :
  checkLines b (l1 ++ l2) =
  match checkLines b l1 with
  | Some r => Some r
  | None => checkLines b l2
  end.
Proof.
  induction l1 as [|l rest IH]; simpl; [reflexivity|].
  destruct (won (map (get b) l)); [reflexivity | exact IH].
Qed.

(** On nine cells the three loops of [isGameOver] amount to one pass over
    [winningLines]. *)
Lemma isGameOver_lines (self : TicTacToe) (board_arg : option (list string)) :
  length (boardOrOwn self board_arg) = 9%nat ->
  isGameOver self board_arg =
  match checkLines (boardOrOwn self board_arg) winningLines with
  | Some r => r
  | None =>
      if Nat.eqb (length (availableFrom 0 (boardOrOwn self board_arg))) 0
      then TIE
      else CONTINUE (availableFrom 0 (boardOrOwn self board_arg))
  end.
Proof.
  intros Hlen. unfold isGameOver, winningLines, getAvailableSlots.
  rewrite Hlen, !checkLines_app. simpl boardOrOwn.
  destruct (checkLines _ (rowLines 9)); [reflexivity|].
  destruct (checkLines _ colLines); [reflexivity|].
  destruct (checkLines _ diagLines); reflexivity.
Qed.

Lemma strictEq_true (a b : JsVal) : strictEq a b = true <-> a = b.
Proof.
  destruct a as [|s], b as [|t]; simpl; try (split; [discriminate|congruence]).
  - tauto.
  - rewrite String.eqb_eq. split; congruence.
Qed.

(** A line is won exactly when its cells, all inside the board, hold one
    same mark that is not the empty one. *)
Lemma won_cells (b : list string) (indices : list nat) :
  indices <> [] ->
  (forall i, In i indices -> (i < length b)%nat) ->
  won (map (get b) indices) = true <->
  exists p, p <> "" /\ forall i, In i indices -> b !! i = Some p.
Proof.
  intros Hne Hin. destruct indices as [|i0 rest]; [congruence|].
  unfold won. simpl hd. rewrite andb_true_iff, negb_true_iff.
  assert (Hget : forall i, In i (i0 :: rest) -> exists c, b !! i = Some c).
  { intros i Hi. apply lookup_lt_is_Some_2. auto. }
  destruct (Hget i0 (or_introl eq_refl)) as [c0 Hc0].
  assert (Hg0 : get b i0 = str c0) by (unfold get; now rewrite Hc0).
  rewrite Hg0. rewrite forallb_forall. simpl strictEq. split.
  - intros [Hall Hc]. exists c0. split.
    + intros ->. simpl in Hc. discriminate.
    + intros i Hi. specialize (Hall (get b i) (in_map _ _ _ Hi)).
      apply strictEq_true in Hall. unfold get in Hall.
      destruct (b !! i); congruence.
  - intros (p & Hp & Hall). rewrite (Hall i0 (or_introl eq_refl)) in Hc0.
    injection Hc0 as <-. split.
    + intros v Hv. apply in_map_iff in Hv as (i & <- & Hi).
      apply strictEq_true. unfold get. now rewrite (Hall i Hi).
    + apply String.eqb_neq. exact Hp.
Qed.

Lemma winningLines_range (indices : list nat) :
  In indices winningLines ->
  indices <> [] /\ forall i, In i indices -> (i < 9)%nat.
Proof.
  rewrite winningLines_eq. simpl.
  intros H; repeat (destruct H as [<- | H]); try contradiction;
    (split; [discriminate|]; simpl; intros i Hi;
     repeat (destruct Hi as [<- | Hi]); try contradiction; lia).
Qed.

(** The first won line of a list is the one [checkLines] returns. *)
Lemma checkLines_first (b : list string) (pre post : list (list nat))
    (indices : list nat) :
  (forall l, In l pre -> won (map (get b) l) = false) ->
  won (map (get b) indices) = true ->
  checkLines b (pre ++ indices :: post)
  = Some (WIN (hd undefined (map (get b) indices)) indices).
Proof.
  intros Hpre Hwon. rewrite checkLines_app.
  apply checkLines_None in Hpre. rewrite Hpre. simpl. now rewrite Hwon.
Qed.

Lemma checkLines_split (b : list string) (lines : list (list nat)) (r : GameResult) :
  checkLines b lines = Some r ->
  exists pre indices post,
    lines = pre ++ indices :: post /\
    (forall l, In l pre -> won (map (get b) l) = false) /\
    won (map (get b) indices) = true /\
    r = WIN (hd undefined (map (get b) indices)) indices.
Proof.
  induction lines as [|l rest IH]; simpl; [discriminate|].
  destruct (won (map (get b) l)) eqn:Hw.
  - intros [= <-]. exists [], l, rest. simpl. repeat split; auto. intros ? [].
  - intros H. destruct (IH H) as (pre & i & post & -> & Hpre & Hwi & ->).
    exists (l :: pre), i, post. simpl. repeat split; auto.
    intros l' [<- | Hl']; auto.
Qed.

Lemma checkLines_won (b : list string) (lines : list (list nat)) (indices : list nat) :
  In indices lines -> won (map (get b) indices) = true ->
  exists r, checkLines b lines = Some r.
Proof.
  intros Hin Hwon. destruct (checkLines b lines) as [r|] eqn:E; [eauto|].
  rewrite checkLines_None in E. rewrite (E _ Hin) in Hwon. discriminate.
Qed.

(** ** Fuel

    Fuel only bounds the recursion: a result obtained with some fuel is
    the result with any larger fuel. *)

Lemma minimax_unfold (fuel : nat) (self : TicTacToe) (board : list string)
    (player : string) (alpha beta : Z) (depth : nat) :
  minimax (S fuel) self board player alpha beta depth =
  match isGameOver self (Some board) with
  | WIN winner _ =>
      Some (board, {| slot := None;
                      score := Some (if strictEq winner (str (computerPlayer self))
                                     then WIN_SCORE else LOSE_SCORE) |})
  | TIE => Some (board, {| slot := None; score := Some TIE_SCORE |})
  | CONTINUE slots =>
      minimaxLoop (minimax fuel self) self player depth slots board emptyMove
        (if String.eqb player (computerPlayer self) then MIN else MAX) alpha beta
  end.
Proof. reflexivity. Qed.

Lemma minimaxLoop_mono rec rec' (self : TicTacToe) (player : string) (depth : nat) :
  (forall b p a be d x, rec b p a be d = Some x -> rec' b p a be d = Some x) ->
  forall slots board bestMove bestScore alpha beta x,
    minimaxLoop rec self player depth slots board bestMove bestScore alpha beta
    = Some x ->
    minimaxLoop rec' self player depth slots board bestMove bestScore alpha beta
    = Some x.
Proof.
  intros Hrec. induction slots as [|s rest IH];
    intros board bestMove bestScore alpha beta x; simpl; [auto|].
  destruct (String.eqb player (computerPlayer self)).
  - destruct (rec _ (humanPlayer self) alpha beta (S depth)) as [[b1 res]|] eqn:E;
      [|discriminate].
    rewrite (Hrec _ _ _ _ _ _ E).
    destruct (beta <=? _); [auto | apply IH].
  - destruct (rec _ (computerPlayer self) alpha beta (S depth)) as [[b1 res]|] eqn:E;
      [|discriminate].
    rewrite (Hrec _ _ _ _ _ _ E).
    destruct (_ <=? alpha); [auto | apply IH].
Qed.

Lemma minimax_fuel_S (fuel : nat) (self : TicTacToe) :
  forall board player alpha beta depth x,
    minimax fuel self board player alpha beta depth = Some x ->
    minimax (S fuel) self board player alpha beta depth = Some x.
Proof.
  induction fuel as [|fuel IH]; intros board player alpha beta depth x;
    [discriminate|].
  rewrite (minimax_unfold (S fuel)), (minimax_unfold fuel).
  destruct (isGameOver self (Some board)); auto.
  apply minimaxLoop_mono. exact IH.
Qed.

Lemma minimax_fuel_mono (fuel fuel' : nat) (self : TicTacToe)
    (board : list string) (player : string) (alpha beta : Z) (depth : nat) x :
  (fuel <= fuel')%nat ->
  minimax fuel self board player alpha beta depth = Some x ->
  minimax fuel' self board player alpha beta depth = Some x.
Proof.
  induction 1 as [|fuel' _ IH]; [auto|].
  intros H. apply minimax_fuel_S. auto.
Qed.

(** ** The search returns, with a score, a slot and the array restored *)

Section Search.

Variable self : TicTacToe.
Hypothesis human_mark : humanPlayer self <> "".
Hypothesis computer_mark : computerPlayer self <> "".

Lemma minimaxLoop_total rec (player : string) (depth : nat)
    (board : list string) (all : list nat) :
  (forall s p a b, In s all ->
     p = humanPlayer self \/ p = computerPlayer self ->
     returnsScore (rec (<[s := player]> board) p a b (S depth))
                  (<[s := player]> board)) ->
  forall slots bestMove bestScore alpha beta,
    (forall s, In s slots -> In s all /\ board !! s = Some "") ->
    (exists s, In s all /\
               bestMove = {| slot := Some s; score := Some bestScore |} /\
               -10 <= bestScore <= 10)
    \/ (slots <> [] /\ bestScore = startScore self player) ->
    exists s r,
      minimaxLoop rec self player depth slots board bestMove bestScore alpha beta
      = Some (board, {| slot := Some s; score := Some r |})
      /\ In s all /\ -10 <= r <= 10.
Proof.
  intros Hrec.
  induction slots as [|s rest IH]; intros bestMove bestScore alpha beta Hslots Hinv.
  - destruct Hinv as [(s & Hs & -> & Hb) | [H _]]; [|congruence].
    exists s, bestScore. simpl. auto.
  - destruct (Hslots s (or_introl eq_refl)) as [Hall Hempty].
    assert (Hrest : forall s', In s' rest -> In s' all /\ board !! s' = Some "")
      by (intros s' Hs'; apply Hslots; now right).
    simpl. unfold startScore in Hinv.
    destruct (String.eqb player (computerPlayer self)) eqn:Hp.
    + destruct (Hrec s (humanPlayer self) alpha beta Hall (or_introl eq_refl))
        as (m & r & -> & Hm & Hr).
      rewrite Hm, (insert_restore _ _ _ Hempty). simpl.
      destruct (Z.ltb_spec bestScore r) as [Hlt|Hge].
      * destruct (beta <=? Z.max alpha r); [eauto 10|].
        apply IH; eauto 10.
      * destruct Hinv as [(s0 & Hs0 & -> & Hb) | [_ ->]];
          [|unfold MIN in Hge; lia].
        destruct (beta <=? Z.max alpha bestScore); [eauto 10|].
        apply IH; eauto 10.
    + destruct (Hrec s (computerPlayer self) alpha beta Hall (or_intror eq_refl))
        as (m & r & -> & Hm & Hr).
      rewrite Hm, (insert_restore _ _ _ Hempty). simpl.
      destruct (Z.ltb_spec r bestScore) as [Hlt|Hge].
      * destruct (Z.min beta r <=? alpha); [eauto 10|].
        apply IH; eauto 10.
      * destruct Hinv as [(s0 & Hs0 & -> & Hb) | [_ ->]];
          [|unfold MAX in Hge; lia].
        destruct (Z.min beta bestScore <=? alpha); [eauto 10|].
        apply IH; eauto 10.
Qed.

(** With more fuel than empty cells the search returns: the array is
    the one it was given, the score is in range, and the move carries a
    slot exactly when the position is not final, an available one. *)
Lemma minimax_total (fuel : nat) :
  forall (board : list string) (player : string) (alpha beta : Z) (depth : nat),
    player <> "" ->
    (length (availableFrom 0 board) < fuel)%nat ->
    exists m r,
      minimax fuel self board player alpha beta depth = Some (board, m)
      /\ score m = Some r /\ -10 <= r <= 10
      /\ match isGameOver self (Some board) with
         | CONTINUE slots => exists s, slot m = Some s /\ In s slots
         | _ => slot m = None
         end.
Proof.
  induction fuel as [|fuel IH]; intros board player alpha beta depth Hp Hfuel;
    [lia|].
  simpl. destruct (isGameOver self (Some board)) as [w l| |slots] eqn:Hres.
  - eexists _, _. split; [reflexivity|]. simpl.
    split; [reflexivity|].
    destruct (strictEq w (str (computerPlayer self)));
      unfold WIN_SCORE, LOSE_SCORE; (split; [lia | reflexivity]).
  - eexists _, _. split; [reflexivity|]. simpl. unfold TIE_SCORE.
    split; [reflexivity|]. split; [lia | reflexivity].
  - destruct (isGameOver_CONTINUE _ _ _ Hres) as [Hslots Hne].
    destruct (minimaxLoop_total (minimax fuel self) player depth board slots)
      with (slots := slots) (bestMove := emptyMove)
           (bestScore := startScore self player) (alpha := alpha) (beta := beta)
      as (s & r & Hloop & Hs & Hr).
    + intros s p a b Hs Hpl.
      assert (Hse : board !! s = Some "").
      { rewrite Hslots in Hs. apply availableFrom_In in Hs as [_ Hs].
        now rewrite Nat.sub_0_r in Hs. }
      destruct (IH (<[s := player]> board) p a b (S depth)) as (m & r & H1 & H2 & H3 & _).
      * destruct Hpl as [-> | ->]; assumption.
      * pose proof (availableFrom_insert board 0 s player Hse Hp). lia.
      * exists m, r. auto.
    + intros s Hs. split; [assumption|].
      rewrite Hslots in Hs. apply availableFrom_In in Hs as [_ Hs].
      now rewrite Nat.sub_0_r in Hs.
    + right. auto.
    + unfold startScore in Hloop. rewrite Hloop.
      eexists _, r. split; [reflexivity|]. simpl. eauto.
Qed.

Lemma refLoop_max_total recRef (player : string) (board : list string) :
  String.eqb player (computerPlayer self) = true ->
  forall slots,
    (forall s, In s slots ->
       refReturns (recRef (<[s := player]> board) (humanPlayer self))) ->
    forall bestSlot bestScore,
      exists sr v,
        refLoop recRef self player board slots bestSlot bestScore = Some (sr, v)
        /\ bestScore <= v /\ (bestScore <= 10 -> v <= 10).
Proof.
  intros Hp. induction slots as [|s rest IH]; intros Href bestSlot bestScore.
  - exists bestSlot, bestScore. simpl. split; [reflexivity | lia].
  - simpl. rewrite Hp.
    destruct (Href s (or_introl eq_refl)) as (sr & v & -> & Hv).
    assert (Hrest : forall s', In s' rest ->
              refReturns (recRef (<[s' := player]> board) (humanPlayer self)))
      by (intros s' Hs'; apply Href; now right).
    destruct (Z.ltb_spec bestScore v).
    + destruct (IH Hrest (Some s) v) as (sr' & v' & -> & H1 & H2).
      exists sr', v'. split; [reflexivity | lia].
    + destruct (IH Hrest bestSlot bestScore) as (sr' & v' & -> & H1 & H2).
      exists sr', v'. split; [reflexivity | lia].
Qed.

Lemma refLoop_min_total recRef (player : string) (board : list string) :
  String.eqb player (computerPlayer self) = false ->
  forall slots,
    (forall s, In s slots ->
       refReturns (recRef (<[s := player]> board) (computerPlayer self))) ->
    forall bestSlot bestScore,
      exists sr v,
        refLoop recRef self player board slots bestSlot bestScore = Some (sr, v)
        /\ v <= bestScore /\ (-10 <= bestScore -> -10 <= v).
Proof.
  intros Hp. induction slots as [|s rest IH]; intros Href bestSlot bestScore.
  - exists bestSlot, bestScore. simpl. split; [reflexivity | lia].
  - simpl. rewrite Hp.
    destruct (Href s (or_introl eq_refl)) as (sr & v & -> & Hv).
    assert (Hrest : forall s', In s' rest ->
              refReturns (recRef (<[s' := player]> board) (computerPlayer self)))
      by (intros s' Hs'; apply Href; now right).
    destruct (Z.ltb_spec v bestScore).
    + destruct (IH Hrest (Some s) v) as (sr' & v' & -> & H1 & H2).
      exists sr', v'. split; [reflexivity | lia].
    + destruct (IH Hrest bestSlot bestScore) as (sr' & v' & -> & H1 & H2).
      exists sr', v'. split; [reflexivity | lia].
Qed.

(** The loop of a maximizing node. [alpha] and [beta] are the window the
    node was entered with; [a] is the loop's running alpha. The
    invariant: the running best score is below [beta] (no cut yet), it
    equals the unpruned running best, with the same slot, as soon as that
    one exceeds [alpha], and lies between it and [alpha] before. *)
Lemma minimaxLoop_max_agree rec recRef (player : string) (depth : nat)
    (board : list string) (alpha beta : Z) :
  String.eqb player (computerPlayer self) = true ->
  MIN <= alpha -> alpha < beta -> beta <= MAX ->
  forall slots,
    (forall s, In s slots -> board !! s = Some "") ->
    (forall s a b, In s slots -> MIN <= a -> a < b -> b <= MAX ->
       agree (rec (<[s := player]> board) (humanPlayer self) a b (S depth))
             (recRef (<[s := player]> board) (humanPlayer self))
             (<[s := player]> board) a b) ->
    forall bestMove bestScore a refSlot refScore,
      a = Z.max alpha bestScore ->
      bestScore < beta ->
      (refScore <= alpha -> refScore <= bestScore <= alpha) ->
      (alpha < refScore -> bestScore = refScore /\ slot bestMove = refSlot) ->
      (score bestMove = Some bestScore /\
       -10 <= bestScore <= 10 /\ -10 <= refScore <= 10)
      \/ (slots <> [] /\ bestScore = MIN /\ refScore = MIN) ->
      agree (minimaxLoop rec self player depth slots board
               bestMove bestScore a beta)
            (refLoop recRef self player board slots refSlot refScore)
            board alpha beta.
Proof.
  intros Hp Hmin Hab Hmax. unfold MIN, MAX in *.
  induction slots as [|s rest IH];
    intros Hempty Hrec bestMove bestScore a refSlot refScore Ha Hlt H1 H2 Hst.
  - destruct Hst as [(Hsc & Hb & Hrb) | (Hne & _)]; [|congruence].
    exists bestMove, bestScore, refSlot, refScore. simpl.
    repeat split; try assumption; try lia; apply H2; lia.
  - assert (Href : forall s', In s' rest ->
              refReturns (recRef (<[s' := player]> board) (humanPlayer self))).
    { intros s' Hs'.
      destruct (Hrec s' (-1000) 1000 (or_intror Hs'))
        as (_ & _ & sr & v & _ & _ & Hr & _ & Hv & _); try lia.
      exists sr, v. auto. }
    assert (Hempty' : forall s', In s' rest -> board !! s' = Some "")
      by (intros s' Hs'; apply Hempty; now right).
    assert (Hrec' : forall s' a b, In s' rest -> -1000 <= a -> a < b -> b <= 1000 ->
       agree (rec (<[s' := player]> board) (humanPlayer self) a b (S depth))
             (recRef (<[s' := player]> board) (humanPlayer self))
             (<[s' := player]> board) a b)
      by (intros s' a' b' Hs'; apply Hrec; now right).
    specialize (IH Hempty' Hrec').
    destruct (Hrec s a beta (or_introl eq_refl))
      as (m & r & sr & v & Hres & Hm & Hrf & Hr & Hv & C1 & C2 & C3); try lia.
    assert (C3a : a < v < beta -> r = v) by (intros H; now apply C3).
    simpl. rewrite Hp, Hres, Hrf, Hm, (insert_restore _ _ _ (Hempty s (or_introl eq_refl))).
    simpl.
    destruct (Z.ltb_spec bestScore r) as [Hu|Hu];
      destruct (Z.ltb_spec refScore v) as [Hv'|Hv'];
      match goal with
      | |- context [if (?x <=? ?y) then _ else _] =>
          destruct (Z.leb_spec x y) as [Hcut|Hcut]
      end.
    all: try (apply IH;
              [ lia | lia | lia
              | intros Hx; split; [lia|];
                first [reflexivity | apply H2; lia | exfalso; lia]
              | left; simpl;
                destruct Hst as [(Hsc & Hb & Hrb) | (_ & Hb & Hrb)];
                repeat split; solve [assumption | reflexivity | lia] ]).
    all: match goal with
         | |- agree _ (refLoop _ _ _ _ _ ?rs ?rv) _ _ _ =>
             destruct (refLoop_max_total recRef player board Hp rest Href rs rv)
               as (sr' & v' & -> & Hge & Hle)
         end.
    all: eexists _, _, sr', v'; split; [reflexivity|]; simpl.
    all: destruct Hst as [(Hsc & Hb & Hrb) | (_ & Hb & Hrb)].
    all: repeat split; try assumption; try reflexivity; try lia.
Qed.

(** The loop of a minimizing node, with [b] the loop's running beta. *)
Lemma minimaxLoop_min_agree rec recRef (player : string) (depth : nat)
    (board : list string) (alpha beta : Z) :
  String.eqb player (computerPlayer self) = false ->
  MIN <= alpha -> alpha < beta -> beta <= MAX ->
  forall slots,
    (forall s, In s slots -> board !! s = Some "") ->
    (forall s a b, In s slots -> MIN <= a -> a < b -> b <= MAX ->
       agree (rec (<[s := player]> board) (computerPlayer self) a b (S depth))
             (recRef (<[s := player]> board) (computerPlayer self))
             (<[s := player]> board) a b) ->
    forall bestMove bestScore b refSlot refScore,
      b = Z.min beta bestScore ->
      alpha < bestScore ->
      (beta <= refScore -> beta <= bestScore <= refScore) ->
      (refScore < beta -> bestScore = refScore /\ slot bestMove = refSlot) ->
      (score bestMove = Some bestScore /\
       -10 <= bestScore <= 10 /\ -10 <= refScore <= 10)
      \/ (slots <> [] /\ bestScore = MAX /\ refScore = MAX) ->
      agree (minimaxLoop rec self player depth slots board
               bestMove bestScore alpha b)
            (refLoop recRef self player board slots refSlot refScore)
            board alpha beta.
Proof.
  intros Hp Hmin Hab Hmax. unfold MIN, MAX in *.
  induction slots as [|s rest IH];
    intros Hempty Hrec bestMove bestScore b refSlot refScore Hb' Hlt H1 H2 Hst.
  - destruct Hst as [(Hsc & Hb & Hrb) | (Hne & _)]; [|congruence].
    exists bestMove, bestScore, refSlot, refScore. simpl.
    repeat split; try assumption; try lia; apply H2; lia.
  - assert (Href : forall s', In s' rest ->
              refReturns (recRef (<[s' := player]> board) (computerPlayer self))).
    { intros s' Hs'.
      destruct (Hrec s' (-1000) 1000 (or_intror Hs'))
        as (_ & _ & sr & v & _ & _ & Hr & _ & Hv & _); try lia.
      exists sr, v. auto. }
    assert (Hempty' : forall s', In s' rest -> board !! s' = Some "")
      by (intros s' Hs'; apply Hempty; now right).
    assert (Hrec' : forall s' a b, In s' rest -> -1000 <= a -> a < b -> b <= 1000 ->
       agree (rec (<[s' := player]> board) (computerPlayer self) a b (S depth))
             (recRef (<[s' := player]> board) (computerPlayer self))
             (<[s' := player]> board) a b)
      by (intros s' a' b' Hs'; apply Hrec; now right).
    specialize (IH Hempty' Hrec').
    destruct (Hrec s alpha b (or_introl eq_refl))
      as (m & r & sr & v & Hres & Hm & Hrf & Hr & Hv & C1 & C2 & C3); try lia.
    assert (C3a : alpha < v < b -> r = v) by (intros H; now apply C3).
    simpl. rewrite Hp, Hres, Hrf, Hm, (insert_restore _ _ _ (Hempty s (or_introl eq_refl))).
    simpl.
    destruct (Z.ltb_spec r bestScore) as [Hu|Hu];
      destruct (Z.ltb_spec v refScore) as [Hv'|Hv'];
      match goal with
      | |- context [if (?x <=? ?y) then _ else _] =>
          destruct (Z.leb_spec x y) as [Hcut|Hcut]
      end.
    all: try (apply IH;
              [ lia | lia | lia
              | intros Hx; split; [lia|];
                first [reflexivity | apply H2; lia | exfalso; lia]
              | left; simpl;
                destruct Hst as [(Hsc & Hb & Hrb) | (_ & Hb & Hrb)];
                repeat split; solve [assumption | reflexivity | lia] ]).
    all: match goal with
         | |- agree _ (refLoop _ _ _ _ _ ?rs ?rv) _ _ _ =>
             destruct (refLoop_min_total recRef player board Hp rest Href rs rv)
               as (sr' & v' & -> & Hge & Hle)
         end.
    all: eexists _, _, sr', v'; split; [reflexivity|]; simpl.
    all: destruct Hst as [(Hsc & Hb & Hrb) | (_ & Hb & Hrb)].
    all: repeat split; try assumption; try reflexivity; try lia.
Qed.

(** The pruned search against the unpruned one, at every node whose
    window lies between the two sentinels. *)
Lemma minimax_agree (fuel : nat) :
  forall (board : list string) (player : string) (alpha beta : Z) (depth : nat),
    player <> "" ->
    (length (availableFrom 0 board) < fuel)%nat ->
    MIN <= alpha -> alpha < beta -> beta <= MAX ->
    agree (minimax fuel self board player alpha beta depth)
          (minimaxRef fuel self board player) board alpha beta.
Proof.
  induction fuel as [|fuel IH];
    intros board player alpha beta depth Hp Hfuel Hmin Hab Hmax; [lia|].
  simpl. destruct (isGameOver self (Some board)) as [w l| |slots] eqn:Hres.
  - eexists _, _, _, _. split; [reflexivity|]. simpl.
    split; [reflexivity|]. split; [reflexivity|].
    destruct (strictEq w (str (computerPlayer self)));
      unfold WIN_SCORE, LOSE_SCORE, abContract; repeat split; lia.
  - eexists _, _, _, _. split; [reflexivity|]. simpl.
    split; [reflexivity|]. split; [reflexivity|].
    unfold TIE_SCORE, abContract; repeat split; lia.
  - destruct (isGameOver_CONTINUE _ _ _ Hres) as [Hslots Hne].
    assert (Hempty : forall s, In s slots -> board !! s = Some "").
    { intros s Hs. rewrite Hslots in Hs. apply availableFrom_In in Hs as [_ Hs].
      now rewrite Nat.sub_0_r in Hs. }
    assert (Hchild : forall s p a b, In s slots ->
              p = humanPlayer self \/ p = computerPlayer self ->
              MIN <= a -> a < b -> b <= MAX ->
              agree (minimax fuel self (<[s := player]> board) p a b (S depth))
                    (minimaxRef fuel self (<[s := player]> board) p)
                    (<[s := player]> board) a b).
    { intros s p a b Hs Hpl Ha1 Ha2 Ha3. apply IH; try assumption.
      - destruct Hpl as [-> | ->]; assumption.
      - pose proof (availableFrom_insert board 0 s player (Hempty s Hs) Hp). lia. }
    destruct (String.eqb player (computerPlayer self)) eqn:Hpc.
    + apply minimaxLoop_max_agree; auto; unfold MIN, MAX in *; lia.
    + apply minimaxLoop_min_agree; auto; unfold MIN, MAX in *; lia.
Qed.

(** *** The unpruned search keeps the lowest-index best slot *)

Lemma refLoop_max_first recRef (player : string) (board : list string)
    (val : nat -> Z) :
  String.eqb player (computerPlayer self) = true ->
  forall slots,
    StronglySorted lt slots ->
    (forall s, In s slots ->
       exists sr, recRef (<[s := player]> board) (humanPlayer self)
                  = Some (sr, val s)) ->
    forall bestSlot bestScore sr v,
      refLoop recRef self player board slots bestSlot bestScore = Some (sr, v) ->
      (sr = bestSlot /\ v = bestScore /\
       forall s, In s slots -> val s <= bestScore)
      \/ (exists s, sr = Some s /\ In s slots /\ val s = v /\ bestScore < v /\
                   (forall s', In s' slots -> val s' <= v) /\
                   (forall s', In s' slots -> (s' < s)%nat -> val s' < v)).
Proof.
  intros Hp. induction slots as [|s rest IH];
    intros Hsorted Hval bestSlot bestScore sr v; simpl.
  - intros [= <- <-]. left. repeat split. intros s [].
  - rewrite Hp. destruct (Hval s (or_introl eq_refl)) as [sr0 ->].
    apply StronglySorted_inv in Hsorted as [Hsorted Hlt].
    rewrite List.Forall_forall in Hlt.
    assert (Hval' : forall s', In s' rest ->
              exists sr, recRef (<[s' := player]> board) (humanPlayer self)
                         = Some (sr, val s'))
      by (intros s' Hs'; apply Hval; now right).
    specialize (IH Hsorted Hval').
    destruct (Z.ltb_spec bestScore (val s)) as [Hup|Hno]; intros Hloop;
      apply IH in Hloop as [(-> & -> & Hall) | (s2 & -> & Hin & Hv & Hgt & Hall & Hfirst)].
    + right. exists s. repeat split; auto.
      * intros s' [<- | Hs']; [lia | auto].
      * intros s' [<- | Hs'] Hlt'; [lia | specialize (Hlt s' Hs'); lia].
    + right. exists s2. repeat split; auto; try lia.
      * intros s' [<- | Hs']; [lia | auto].
      * intros s' [<- | Hs'] Hlt'; [lia | auto].
    + left. repeat split. intros s' [<- | Hs']; [lia | auto].
    + right. exists s2. repeat split; auto.
      * intros s' [<- | Hs']; [lia | auto].
      * intros s' [<- | Hs'] Hlt'; [lia | auto].
Qed.

Lemma refLoop_min_first recRef (player : string) (board : list string)
    (val : nat -> Z) :
  String.eqb player (computerPlayer self) = false ->
  forall slots,
    StronglySorted lt slots ->
    (forall s, In s slots ->
       exists sr, recRef (<[s := player]> board) (computerPlayer self)
                  = Some (sr, val s)) ->
    forall bestSlot bestScore sr v,
      refLoop recRef self player board slots bestSlot bestScore = Some (sr, v) ->
      (sr = bestSlot /\ v = bestScore /\
       forall s, In s slots -> bestScore <= val s)
      \/ (exists s, sr = Some s /\ In s slots /\ val s = v /\ v < bestScore /\
                   (forall s', In s' slots -> v <= val s') /\
                   (forall s', In s' slots -> (s' < s)%nat -> v < val s')).
Proof.
  intros Hp. induction slots as [|s rest IH];
    intros Hsorted Hval bestSlot bestScore sr v; simpl.
  - intros [= <- <-]. left. repeat split. intros s [].
  - rewrite Hp. destruct (Hval s (or_introl eq_refl)) as [sr0 ->].
    apply StronglySorted_inv in Hsorted as [Hsorted Hlt].
    rewrite List.Forall_forall in Hlt.
    assert (Hval' : forall s', In s' rest ->
              exists sr, recRef (<[s' := player]> board) (computerPlayer self)
                         = Some (sr, val s'))
      by (intros s' Hs'; apply Hval; now right).
    specialize (IH Hsorted Hval').
    destruct (Z.ltb_spec (val s) bestScore) as [Hup|Hno]; intros Hloop;
      apply IH in Hloop as [(-> & -> & Hall) | (s2 & -> & Hin & Hv & Hgt & Hall & Hfirst)].
    + right. exists s. repeat split; auto.
      * intros s' [<- | Hs']; [lia | auto].
      * intros s' [<- | Hs'] Hlt'; [lia | specialize (Hlt s' Hs'); lia].
    + right. exists s2. repeat split; auto; try lia.
      * intros s' [<- | Hs']; [lia | auto].
      * intros s' [<- | Hs'] Hlt'; [lia | auto].
    + left. repeat split. intros s' [<- | Hs']; [lia | auto].
    + right. exists s2. repeat split; auto.
      * intros s' [<- | Hs']; [lia | auto].
      * intros s' [<- | Hs'] Hlt'; [lia | auto].
Qed.

(** The unpruned search returns with a score in range. *)
Lemma minimaxRef_total (fuel : nat) (board : list string) (player : string) :
  player <> "" ->
  (length (availableFrom 0 board) < fuel)%nat ->
  refReturns (minimaxRef fuel self board player).
Proof.
  intros Hp Hfuel.
  destruct (minimax_agree fuel board player MIN MAX 0 Hp Hfuel)
    as (_ & _ & sr & v & _ & _ & H & _ & Hv & _); unfold MIN, MAX; try lia.
  exists sr, v. auto.
Qed.

(** At a position to be continued the unpruned search returns the lowest
    available index whose child has the best score: the greatest one
    when [computerPlayer] moves, the least one otherwise. *)
Lemma minimaxRef_lowest_index (fuel : nat) (b : list string) (player : string)
    (slots : list nat) :
  player <> "" ->
  isGameOver self (Some b) = CONTINUE slots ->
  (length (availableFrom 0 b) <= fuel)%nat ->
  exists s v,
    minimaxRef (S fuel) self b player = Some (Some s, v) /\
    In s slots /\
    childScore fuel self b player s = v /\
    (forall s', In s' slots ->
       if String.eqb player (computerPlayer self)
       then childScore fuel self b player s' <= v
       else v <= childScore fuel self b player s') /\
    (forall s', In s' slots -> (s' < s)%nat ->
       childScore fuel self b player s' <> v).
Proof.
  intros Hp Hres Hfuel.
  destruct (isGameOver_CONTINUE _ _ _ Hres) as [Hslots Hne].
  assert (Hempty : forall s, In s slots -> b !! s = Some "").
  { intros s Hs. rewrite Hslots in Hs. apply availableFrom_In in Hs as [_ Hs].
    now rewrite Nat.sub_0_r in Hs. }
  assert (Hsorted : StronglySorted lt slots)
    by (rewrite Hslots; apply availableFrom_sorted).
  assert (Hchild : forall s, In s slots ->
            exists sr, minimaxRef fuel self (<[s := player]> b)
                         (opponent self player)
                       = Some (sr, childScore fuel self b player s)
                       /\ -10 <= childScore fuel self b player s <= 10).
  { intros s Hs. unfold childScore.
    destruct (minimaxRef_total fuel (<[s := player]> b) (opponent self player))
      as (sr & v & -> & Hv).
    - unfold opponent. destruct (String.eqb player (computerPlayer self)); assumption.
    - pose proof (availableFrom_insert b 0 s player (Hempty s Hs) Hp). lia.
    - eauto. }
  destruct (minimaxRef_total (S fuel) b player Hp) as (sr & v & Href & Hv); [lia|].
  pose proof Href as Hloop. simpl in Hloop. rewrite Hres in Hloop.
  unfold opponent in Hchild.
  destruct slots as [|s0 rest]; [congruence|].
  destruct (Hchild s0 (or_introl eq_refl)) as (_ & _ & Hb0).
  destruct (String.eqb player (computerPlayer self)) eqn:Hpc.
  - apply (refLoop_max_first _ _ _ (childScore fuel self b player) Hpc) in Hloop
      as [(_ & -> & Hall) | (s & -> & Hin & Hval & _ & Hall & Hfirst)]; auto.
    + specialize (Hall s0 (or_introl eq_refl)). unfold MIN in Hall. lia.
    + exists s, v. rewrite Href. repeat split; auto.
      intros s' Hs' Hlt. specialize (Hfirst s' Hs' Hlt). lia.
    + intros s Hs. destruct (Hchild s Hs) as (sr' & H & _). eauto.
  - apply (refLoop_min_first _ _ _ (childScore fuel self b player) Hpc) in Hloop
      as [(_ & -> & Hall) | (s & -> & Hin & Hval & _ & Hall & Hfirst)]; auto.
    + specialize (Hall s0 (or_introl eq_refl)). unfold MAX in Hall. lia.
    + exists s, v. rewrite Href. repeat split; auto.
      intros s' Hs' Hlt. specialize (Hfirst s' Hs' Hlt). lia.
    + intros s Hs. destruct (Hchild s Hs) as (sr' & H & _). eauto.
Qed.

End Search.

(** ** Reachable positions *)

Lemma reachable_player (self : TicTacToe) (b : list string) (p : string) :
  reachable self b p -> p = humanPlayer self \/ p = computerPlayer self.
Proof.
  intros H. destruct H; auto.
  unfold opponent. destruct (String.eqb p (computerPlayer self)); auto.
Qed.

Lemma available_le_length (b : list string) :
  (length (availableFrom 0 b) <= length b)%nat.
Proof. pose proof (availableFrom_length b 0). lia. Qed.

(** ** Moves *)

Lemma isValidSlot_true (self : TicTacToe) (slot : Z) :
  isValidSlot self slot = true <->
  0 <= slot < Z.of_nat (length (board self)) /\
  board self !! Z.to_nat slot = Some "".
Proof.
  unfold isValidSlot. rewrite !andb_true_iff, Z.leb_le, Z.ltb_lt, strictEq_true.
  unfold get. destruct (board self !! Z.to_nat slot) as [c|]; split.
  - intros [[H1 H2] [= ->]]. auto.
  - intros [[H1 H2] [= ->]]. auto.
  - intros [_ [=]].
  - intros [_ [=]].
Qed.

Lemma play_valid (self : TicTacToe) (slot : Z) (player : string) :
  gameOver self = false ->
  isValidSlot self slot = true ->
  exists self' r,
    play self slot player = (self', Return r) /\
    board self' = <[Z.to_nat slot := player]> (board self) /\
    r = isGameOver self' None /\
    gameOver self' = notContinue r.
Proof.
  intros Hg Hv. unfold play. rewrite Hg, Hv. simpl.
  match goal with
  | |- context [notContinue ?r] => destruct r eqn:E
  end; simpl; eexists _, _; (split; [reflexivity|]); simpl; rewrite ?Hg; auto.
Qed.

Lemma won_complete (b : list string) (l : list nat) :
  length b = 9%nat -> In l winningLines ->
  won (map (get b) l) = true <-> complete b l.
Proof.
  intros Hlen Hl. destruct (winningLines_range l Hl) as [Hne Hr].
  rewrite won_cells; [reflexivity | assumption |].
  intros i Hi. rewrite Hlen. auto.
Qed.

Lemma filledBy_hd (b : list string) (l : list nat) (q : string) :
  l <> [] -> filledBy b l q -> hd undefined (map (get b) l) = str q.
Proof.
  intros Hne [_ H]. destruct l as [|i rest]; [congruence|].
  simpl. unfold get. now rewrite (H i (or_introl eq_refl)).
Qed.

(** ** The instance under its operations *)

Lemma play_invalid (self : TicTacToe) (slot : Z) (player : string) :
  gameOver self = true \/ isValidSlot self slot = false ->
  fst (play self slot player) = self.
Proof.
  unfold play. intros [H | H].
  - now rewrite H.
  - destruct (gameOver self); [reflexivity|]. now rewrite H.
Qed.

(** Whatever sequence of [play] and [reset] an instance has gone through
    since [constructor], its board has nine cells and its flag says
    whether [isGameOver] classifies the board as final. *)
Lemma engine_invariant (self : TicTacToe) :
  engineState self ->
  length (board self) = 9%nat /\
  gameOver self = notContinue (isGameOver self None).
Proof.
  induction 1 as [| self H [Hlen Hflag] | self slot player H [Hlen Hflag]].
  - split; reflexivity.
  - split; reflexivity.
  - destruct (gameOver self) eqn:Hg;
      [rewrite play_invalid by auto; rewrite Hg; auto|].
    destruct (isValidSlot self slot) eqn:Hv;
      [|rewrite play_invalid by auto; rewrite Hg; auto].
    destruct (play_valid self slot player Hg Hv) as (self' & r & -> & Hb & Hr & Hf).
    simpl. split.
    + rewrite Hb, length_insert. exact Hlen.
    + rewrite Hf, Hr. reflexivity.
Qed.

(** [getNextBestSlot] returns the slot of the unpruned search, on every
    board. *)
Lemma getNextBestSlot_reference (self : TicTacToe) :
  humanPlayer self <> "" -> computerPlayer self <> "" ->
  exists sr v,
    getNextBestSlot self = Some (self, sr) /\
    minimaxRef (S (length (board self))) self (board self) (computerPlayer self)
    = Some (sr, v).
Proof.
  intros Hh Hc. unfold getNextBestSlot.
  pose proof (available_le_length (board self)) as Hav.
  destruct (minimax_agree self Hh Hc (S (length (board self))) (board self)
              (computerPlayer self) MIN MAX 0 Hc)
    as (m & r & sr & v & -> & Hs & Hr & Hrb & Hvb & _ & _ & Hin);
    unfold MIN, MAX; try lia.
  assert (Hw : MIN < v < MAX) by (unfold MIN, MAX; lia).
  destruct (Hin Hw) as [-> <-]. eauto.
Qed.

(** Two lines completed by one legal move: the fifth mark of "X", put on
    slot 0, fills the top row and a diagonal; the row, tried first, is the
    line reported. *)
Example double_line_by_legal_play :
  snd (play {| board := [""; "X"; "X"; "O"; "X"; "O"; "O"; "O"; "X"];
               humanPlayer := "O"; computerPlayer := "X"; gameOver := false |}
            0 "X")
  = Return (WIN (str "X") [0; 1; 2]%nat)
  /\ filledBy ["X"; "X"; "X"; "O"; "X"; "O"; "O"; "O"; "X"] [0; 4; 8]%nat "X".
Proof.
  split; [reflexivity|]. split; [discriminate|].
  simpl. intros i [<- | [<- | [<- | []]]]; reflexivity.
Qed.

(** * The claims *)

(** C7. On every board of nine cells, [getAvailableSlots] returns the
    indices of the empty cells, in strictly ascending order, and the
    length of what it returns plus the number of cells that are not empty
    is 9. *)
Theorem getAvailableSlots_ascending_count
    (self : TicTacToe) (board_arg : option (list string)) :
  length (boardOrOwn self board_arg) = 9%nat ->
  StronglySorted lt (getAvailableSlots self board_arg) /\
  (forall i, In i (getAvailableSlots self board_arg) <->
             boardOrOwn self board_arg !! i = Some "") /\
  (length (getAvailableSlots self board_arg)
   + countNonEmpty (boardOrOwn self board_arg))%nat = 9%nat.
Proof.
  intros Hlen. unfold getAvailableSlots. repeat split.
  - apply availableFrom_sorted.
  - intros H. apply availableFrom_In in H as [_ H].
    now rewrite Nat.sub_0_r in H.
  - intros H. apply availableFrom_In. rewrite Nat.sub_0_r. split; [lia | exact H].
  - rewrite availableFrom_length. exact Hlen.
Qed.

Lemma getAvailableSlots_ascending_count_witness :
  let b := ["X"; "X"; ""; ""; "O"; "O"; ""; ""; ""] in
  length (boardOrOwn constructor (Some b)) = 9%nat /\
  (StronglySorted lt (getAvailableSlots constructor (Some b)) /\
   (forall i, In i (getAvailableSlots constructor (Some b)) <->
              boardOrOwn constructor (Some b) !! i = Some "") /\
   (length (getAvailableSlots constructor (Some b))
    + countNonEmpty (boardOrOwn constructor (Some b)))%nat = 9%nat).
Proof.
  split; [reflexivity|].
  apply (getAvailableSlots_ascending_count constructor
           (Some ["X"; "X"; ""; ""; "O"; "O"; ""; ""; ""])).
  reflexivity.
Defined.

(** C4. [play] fails in exactly two cases and succeeds otherwise. When the
    game is over it throws the state error. When the game is not over and
    the slot is below 0, above 8 or holds a mark, it throws the move
    error. In both cases the instance, board and flag, is returned as it
    was. When the game is not over and the slot is an empty cell in 0..8,
    [play] returns a result. *)
Theorem play_failure_cases (self : TicTacToe) (slot : Z) (player : string) :
  length (board self) = 9%nat ->
  (gameOver self = true ->
     play self slot player = (self, Throw InvalidStateError)) /\
  (gameOver self = false ->
     (slot < 0 \/ 8 < slot \/
      exists c, board self !! Z.to_nat slot = Some c /\ c <> "") ->
     play self slot player = (self, Throw (InvalidMoveError slot))) /\
  (gameOver self = false ->
     0 <= slot <= 8 -> board self !! Z.to_nat slot = Some "" ->
     exists self' r, play self slot player = (self', Return r)).
Proof.
  intros Hlen. repeat split.
  - intros Hg. unfold play. now rewrite Hg.
  - intros Hg Hbad. unfold play. rewrite Hg.
    destruct (isValidSlot self slot) eqn:Hv; [|reflexivity].
    apply isValidSlot_true in Hv as [Hr Hc]. rewrite Hlen in Hr.
    destruct Hbad as [H | [H | (c & Hc' & Hne)]]; try lia.
    congruence.
  - intros Hg Hr Hc.
    destruct (play_valid self slot player Hg) as (self' & r & H & _).
    + apply isValidSlot_true. rewrite Hlen. split; [lia | exact Hc].
    + eauto.
Qed.

Lemma play_failure_cases_witness :
  let self := {| board := ["X"; "X"; ""; ""; "O"; "O"; ""; ""; ""];
                 humanPlayer := "O"; computerPlayer := "X";
                 gameOver := false |} in
  let over := {| board := ["X"; "X"; "X"; ""; "O"; "O"; ""; ""; ""];
                 humanPlayer := "O"; computerPlayer := "X";
                 gameOver := true |} in
  length (board self) = 9%nat /\
  play over 3 "O" = (over, Throw InvalidStateError) /\
  play self 0 "O" = (self, Throw (InvalidMoveError 0)) /\
  play self 9 "O" = (self, Throw (InvalidMoveError 9)) /\
  play self (-1) "O" = (self, Throw (InvalidMoveError (-1))) /\
  exists self' r, play self 2 "O" = (self', Return r).
Proof.
  intros self over.
  pose proof (play_failure_cases over 3 "O" eq_refl) as (Ho & _).
  pose proof (play_failure_cases self 0 "O" eq_refl) as (_ & H0 & _).
  pose proof (play_failure_cases self 9 "O" eq_refl) as (_ & H9 & _).
  pose proof (play_failure_cases self (-1) "O" eq_refl) as (_ & Hm & _).
  pose proof (play_failure_cases self 2 "O" eq_refl) as (_ & _ & H2).
  split; [reflexivity|]. split; [|split; [|split; [|split]]].
  - apply Ho. reflexivity.
  - apply H0; [reflexivity|]. right. right. exists "X". split; [reflexivity | discriminate].
  - apply H9; [reflexivity|]. right. left. lia.
  - apply Hm; [reflexivity|]. left. lia.
  - apply H2; [reflexivity | lia | reflexivity].
Defined.

(** C5. In a game that is not over, [play] on a valid slot succeeds; the
    cell of the slot was empty and holds the player's mark afterwards, and
    every other cell is as before. *)
Theorem play_changes_one_cell (self : TicTacToe) (slot : Z) (player : string) :
  gameOver self = false ->
  isValidSlot self slot = true ->
  exists self' r,
    play self slot player = (self', Return r) /\
    board self !! Z.to_nat slot = Some "" /\
    board self' !! Z.to_nat slot = Some player /\
    (forall i, i <> Z.to_nat slot -> board self' !! i = board self !! i) /\
    length (board self') = length (board self).
Proof.
  intros Hg Hv.
  destruct (play_valid self slot player Hg Hv) as (self' & r & Hp & Hb & _).
  apply isValidSlot_true in Hv as [Hr Hc].
  exists self', r. rewrite Hb. repeat split; try assumption.
  - apply list_lookup_insert_eq. lia.
  - intros i Hi. apply list_lookup_insert_ne. congruence.
  - apply length_insert.
Qed.

Lemma play_changes_one_cell_witness :
  let self := {| board := ["X"; "X"; ""; ""; "O"; "O"; ""; ""; ""];
                 humanPlayer := "O"; computerPlayer := "X";
                 gameOver := false |} in
  gameOver self = false /\ isValidSlot self 2 = true /\
  exists self' r,
    play self 2 "X" = (self', Return r) /\
    board self !! Z.to_nat 2 = Some "" /\
    board self' !! Z.to_nat 2 = Some "X" /\
    (forall i, i <> Z.to_nat 2 -> board self' !! i = board self !! i) /\
    length (board self') = length (board self).
Proof.
  intros self. split; [reflexivity|]. split; [reflexivity|].
  apply (play_changes_one_cell self 2 "X"); reflexivity.
Defined.

(** C10. [play] does not look at the token it is given: in a game that is
    not over, on a valid slot, it succeeds with any token and writes that
    token into the cell. With the empty token the board is as before, the
    slot is still valid and still among the available slots. *)
Theorem play_accepts_any_token (self : TicTacToe) (slot : Z) (p : string) :
  gameOver self = false ->
  isValidSlot self slot = true ->
  exists self' r,
    play self slot p = (self', Return r) /\
    board self' = <[Z.to_nat slot := p]> (board self) /\
    board self' !! Z.to_nat slot = Some p /\
    (p = "" ->
       board self' = board self /\
       isValidSlot self' slot = true /\
       In (Z.to_nat slot) (getAvailableSlots self' None)).
Proof.
  intros Hg Hv.
  destruct (play_valid self slot p Hg Hv) as (self' & r & Hp & Hb & _).
  pose proof Hv as Hv'. apply isValidSlot_true in Hv' as [Hr Hc].
  exists self', r. split; [assumption|]. split; [assumption|].
  assert (Hcell : board self' !! Z.to_nat slot = Some p).
  { rewrite Hb. apply list_lookup_insert_eq. lia. }
  split; [assumption|]. intros ->.
  assert (Hsame : board self' = board self).
  { rewrite Hb. now apply list_insert_id. }
  split; [assumption|]. split.
  - apply isValidSlot_true. rewrite Hsame. auto.
  - unfold getAvailableSlots. simpl boardOrOwn. apply availableFrom_In.
    rewrite Nat.sub_0_r. split; [lia | assumption].
Qed.

Lemma play_accepts_any_token_witness :
  let self := {| board := ["X"; "X"; ""; ""; "O"; "O"; ""; ""; ""];
                 humanPlayer := "O"; computerPlayer := "X";
                 gameOver := false |} in
  gameOver self = false /\ isValidSlot self 2 = true /\
  (exists self' r,
    play self 2 "" = (self', Return r) /\
    board self' = <[Z.to_nat 2 := ""]> (board self) /\
    board self' !! Z.to_nat 2 = Some "" /\
    ("" = "" ->
       board self' = board self /\
       isValidSlot self' 2 = true /\
       In (Z.to_nat 2) (getAvailableSlots self' None))) /\
  (exists self' r,
    play self 2 "Z" = (self', Return r) /\
    board self' = <[Z.to_nat 2 := "Z"]> (board self) /\
    board self' !! Z.to_nat 2 = Some "Z" /\
    ("Z" = "" ->
       board self' = board self /\
       isValidSlot self' 2 = true /\
       In (Z.to_nat 2) (getAvailableSlots self' None))).
Proof.
  intros self. split; [reflexivity|]. split; [reflexivity|]. split.
  - apply (play_accepts_any_token self 2 ""); reflexivity.
  - apply (play_accepts_any_token self 2 "Z"); reflexivity.
Defined.

(** C8. With the two marks not empty, the search returns, at every node
    (whatever the window, so also where the loop is cut), with the array
    it was given, cell by cell; and [getNextBestSlot] returns with the
    instance, board and flag, as it was. *)
Theorem minimax_restores_board (self : TicTacToe) (fuel : nat)
    (b : list string) (player : string) (alpha beta : Z) (depth : nat) :
  humanPlayer self <> "" -> computerPlayer self <> "" -> player <> "" ->
  (length (availableFrom 0 b) < fuel)%nat ->
  (exists m, minimax fuel self b player alpha beta depth = Some (b, m))
  /\ (exists s, getNextBestSlot self = Some (self, s)).
Proof.
  intros Hh Hc Hp Hfuel. split.
  - destruct (minimax_total self Hh Hc fuel b player alpha beta depth Hp Hfuel)
      as (m & _ & H & _). eauto.
  - unfold getNextBestSlot.
    destruct (minimax_total self Hh Hc (S (length (board self)))
                (board self) (computerPlayer self) MIN MAX 0 Hc)
      as (m & _ & -> & _); [|eauto].
    pose proof (available_le_length (board self)). lia.
Qed.

Lemma minimax_restores_board_witness :
  let b := ["X"; "X"; ""; ""; "O"; "O"; ""; ""; ""] in
  humanPlayer constructor <> "" /\ computerPlayer constructor <> "" /\
  "O" <> "" /\ (length (availableFrom 0 b) < 10)%nat /\
  (exists m, minimax 10 constructor b "O" 0 10 3 = Some (b, m)) /\
  (exists s, getNextBestSlot constructor = Some (constructor, s)).
Proof.
  intros b.
  assert (Hh : humanPlayer constructor <> "") by discriminate.
  assert (Hc : computerPlayer constructor <> "") by discriminate.
  assert (Hp : "O" <> "") by discriminate.
  assert (Hf : (length (availableFrom 0 b) < 10)%nat) by (simpl; lia).
  split; [exact Hh|]. split; [exact Hc|]. split; [exact Hp|]. split; [exact Hf|].
  exact (minimax_restores_board constructor 10 b "O" 0 10 3 Hh Hc Hp Hf).
Defined.

(** C6. With the two marks not empty, on a board that [isGameOver]
    classifies as to be continued (so with an empty cell),
    [getNextBestSlot] returns the index of one of the board's empty
    cells, inside the board. *)
Theorem getNextBestSlot_available (self : TicTacToe) (slots : list nat) :
  humanPlayer self <> "" -> computerPlayer self <> "" ->
  isGameOver self None = CONTINUE slots ->
  exists s,
    getNextBestSlot self = Some (self, Some s) /\
    In s slots /\
    In s (getAvailableSlots self None) /\
    (s < length (board self))%nat /\
    board self !! s = Some "".
Proof.
  intros Hh Hc Hres. unfold getNextBestSlot.
  rewrite isGameOver_default in Hres.
  destruct (minimax_total self Hh Hc (S (length (board self)))
              (board self) (computerPlayer self) MIN MAX 0 Hc)
    as (m & r & -> & _ & _ & Hslot).
  { pose proof (available_le_length (board self)). lia. }
  rewrite Hres in Hslot. destruct Hslot as (s & Hs & Hin).
  exists s. rewrite Hs. split; [reflexivity|]. split; [assumption|].
  destruct (isGameOver_CONTINUE _ _ _ Hres) as [-> _].
  split; [exact Hin|].
  apply availableFrom_In in Hin as [_ Hin]. rewrite Nat.sub_0_r in Hin.
  split; [|assumption]. apply lookup_lt_is_Some_1. eauto.
Qed.

Lemma getNextBestSlot_available_witness :
  let self := {| board := ["X"; "X"; ""; ""; "O"; "O"; ""; ""; ""];
                 humanPlayer := "O"; computerPlayer := "X";
                 gameOver := false |} in
  humanPlayer self <> "" /\ computerPlayer self <> "" /\
  isGameOver self None = CONTINUE [2; 3; 6; 7; 8]%nat /\
  exists s,
    getNextBestSlot self = Some (self, Some s) /\
    In s [2; 3; 6; 7; 8]%nat /\
    In s (getAvailableSlots self None) /\
    (s < length (board self))%nat /\
    board self !! s = Some "".
Proof.
  intros self.
  assert (Hh : humanPlayer self <> "") by discriminate.
  assert (Hc : computerPlayer self <> "") by discriminate.
  split; [exact Hh|]. split; [exact Hc|]. split; [reflexivity|].
  exact (getNextBestSlot_available self [2; 3; 6; 7; 8]%nat Hh Hc eq_refl).
Defined.

(** C2. With the two marks not empty, on every position reachable by
    alternating legal play and for the player to move there, the search
    with pruning, started with alpha = -1000 and beta = 1000, and the
    unpruned reference search both return, with the same slot and the same
    score. Where the position is to be continued, that slot is the lowest
    available index whose child position has the best unpruned score (the
    greatest for [computerPlayer], the least for the other player). *)
Theorem pruning_preserves_choice (self : TicTacToe) (b : list string)
    (p : string) (fuel : nat) :
  humanPlayer self <> "" -> computerPlayer self <> "" ->
  reachable self b p ->
  (length b <= fuel)%nat ->
  exists m sr v,
    minimax (S fuel) self b p MIN MAX 0 = Some (b, m) /\
    minimaxRef (S fuel) self b p = Some (sr, v) /\
    slot m = sr /\ score m = Some v /\
    (forall slots,
       isGameOver self (Some b) = CONTINUE slots ->
       exists s,
         sr = Some s /\ In s slots /\
         childScore fuel self b p s = v /\
         (forall s', In s' slots ->
            if String.eqb p (computerPlayer self)
            then childScore fuel self b p s' <= v
            else v <= childScore fuel self b p s') /\
         (forall s', In s' slots -> (s' < s)%nat ->
            childScore fuel self b p s' <> v)).
Proof.
  intros Hh Hc Hreach Hfuel.
  assert (Hp : p <> "").
  { destruct (reachable_player _ _ _ Hreach) as [-> | ->]; assumption. }
  pose proof (available_le_length b) as Hav.
  destruct (minimax_agree self Hh Hc (S fuel) b p MIN MAX 0 Hp)
    as (m & r & sr & v & Hm & Hs & Hr & Hrb & Hvb & _ & _ & Hin);
    unfold MIN, MAX; try lia.
  assert (Hw : MIN < v < MAX) by (unfold MIN, MAX; lia).
  destruct (Hin Hw) as [-> <-].
  exists m, (slot m), v. repeat split; try assumption.
  intros slots Hres.
  destruct (minimaxRef_lowest_index self Hh Hc fuel b p slots Hp Hres)
    as (s & v' & Href & Hrest); [lia|].
  rewrite Hr in Href. injection Href as Hslot <-.
  exists s. split; assumption.
Qed.

Lemma pruning_preserves_choice_witness :
  let b := ["O"; ""; ""; ""; "X"; ""; ""; ""; ""] in
  humanPlayer constructor <> "" /\ computerPlayer constructor <> "" /\
  reachable constructor b "X" /\ (length b <= 9)%nat /\
  exists m sr v,
    minimax 10 constructor b "X" MIN MAX 0 = Some (b, m) /\
    minimaxRef 10 constructor b "X" = Some (sr, v) /\
    slot m = sr /\ score m = Some v /\
    (forall slots,
       isGameOver constructor (Some b) = CONTINUE slots ->
       exists s,
         sr = Some s /\ In s slots /\
         childScore 9 constructor b "X" s = v /\
         (forall s', In s' slots ->
            if String.eqb "X" (computerPlayer constructor)
            then childScore 9 constructor b "X" s' <= v
            else v <= childScore 9 constructor b "X" s') /\
         (forall s', In s' slots -> (s' < s)%nat ->
            childScore 9 constructor b "X" s' <> v)).
Proof.
  assert (H : reachable constructor ["O"; ""; ""; ""; "X"; ""; ""; ""; ""] "X").
  { change (reachable constructor
              (<[0%nat := "O"]> [""; ""; ""; ""; "X"; ""; ""; ""; ""])
              (opponent constructor "O")).
    apply (reachable_move constructor [""; ""; ""; ""; "X"; ""; ""; ""; ""] "O"
             [0; 1; 2; 3; 5; 6; 7; 8]%nat 0%nat);
      [|reflexivity | simpl; auto].
    change (reachable constructor
              (<[4%nat := "X"]> [""; ""; ""; ""; ""; ""; ""; ""; ""])
              (opponent constructor "X")).
    apply (reachable_move constructor [""; ""; ""; ""; ""; ""; ""; ""; ""] "X"
             [0; 1; 2; 3; 4; 5; 6; 7; 8]%nat 4%nat);
      [|reflexivity | simpl; auto 10].
    apply reachable_start_computer. }
  split; [discriminate|]. split; [discriminate|]. split; [exact H|].
  split; [simpl; lia|].
  apply (pruning_preserves_choice constructor
           ["O"; ""; ""; ""; "X"; ""; ""; ""; ""] "X" 9);
    [discriminate | discriminate | exact H | simpl; lia].
Defined.

(** C9. On a board of nine cells, when [isGameOver] reports a win, the
    line it reports is one of the eight lines, the player it reports is a
    mark that is not the empty one, and the three cells of the line hold
    that mark; on a board where none of the eight lines is so filled, no
    win is reported. *)
Theorem win_is_sound (self : TicTacToe) (board_arg : option (list string)) :
  length (boardOrOwn self board_arg) = 9%nat ->
  (forall w l,
     isGameOver self board_arg = WIN w l ->
     In l winningLines /\
     exists p, w = str p /\ filledBy (boardOrOwn self board_arg) l p) /\
  ((forall l, In l winningLines -> ~ complete (boardOrOwn self board_arg) l) ->
   forall w l, isGameOver self board_arg <> WIN w l).
Proof.
  intros Hlen.
  assert (Hsound : forall w l,
     isGameOver self board_arg = WIN w l ->
     In l winningLines /\
     exists p, w = str p /\ filledBy (boardOrOwn self board_arg) l p).
  { intros w l H. rewrite (isGameOver_lines _ _ Hlen) in H.
    destruct (checkLines _ winningLines) as [r|] eqn:E.
    - subst r. apply checkLines_Some in E as (l' & Hin & Hwon & [= -> ->]).
      split; [assumption|].
      apply (won_complete _ _ Hlen Hin) in Hwon as [p Hp].
      exists p. split; [|assumption].
      apply filledBy_hd; [|assumption].
      apply (winningLines_range _ Hin).
    - destruct (Nat.eqb _ 0); discriminate. }
  split; [exact Hsound|].
  intros Hnone w l H. destruct (Hsound w l H) as (Hin & p & _ & Hp).
  apply (Hnone l Hin). exists p. exact Hp.
Qed.

Lemma win_is_sound_witness :
  let b := ["X"; "O"; ""; "O"; "X"; ""; ""; ""; "X"] in
  length (boardOrOwn constructor (Some b)) = 9%nat /\
  isGameOver constructor (Some b) = WIN (str "X") [0; 4; 8]%nat /\
  In [0; 4; 8]%nat winningLines /\
  exists p, str "X" = str p /\ filledBy b [0; 4; 8]%nat p.
Proof.
  intros b. split; [reflexivity|]. split; [reflexivity|].
  apply (win_is_sound constructor (Some b) eq_refl). reflexivity.
Defined.

(** C3, as it is stated, fails: with the top row held by "O" and the
    middle row by "X", the three cells of the line 3,4,5 hold "X", yet the
    board is classified as a win of "O" on the line 0,1,2. *)
Lemma win_line_not_always_reported :
  ~ (forall (self : TicTacToe) (b : list string) (l : list nat) (p : string),
       length b = 9%nat -> In l winningLines -> filledBy b l p ->
       isGameOver self (Some b) = WIN (str p) l).
Proof.
  intros H.
  specialize (H constructor ["O"; "O"; "O"; "X"; "X"; "X"; ""; ""; ""]
                [3; 4; 5]%nat "X" eq_refl).
  assert (Hwin : isGameOver constructor
                   (Some ["O"; "O"; "O"; "X"; "X"; "X"; ""; ""; ""])
                 = WIN (str "O") [0; 1; 2]%nat) by reflexivity.
  rewrite Hwin in H. discriminate H.
  - rewrite winningLines_eq. simpl. auto.
  - split; [discriminate|]. simpl.
    intros i [<- | [<- | [<- | []]]]; reflexivity.
Qed.

(** C3, amended. On a board of nine cells where the three cells of one of
    the eight lines [l] hold the mark [p] of a player, [isGameOver]
    reports a win: the win of the first line, in the order of
    [winningLines], that is filled with one same mark, for the mark that
    fills it. It reports [p] and [l] whenever no line before [l] in that
    order is so filled. *)
Theorem win_detection_first_line (self : TicTacToe)
    (board_arg : option (list string)) (l : list nat) (p : string) :
  length (boardOrOwn self board_arg) = 9%nat ->
  In l winningLines ->
  filledBy (boardOrOwn self board_arg) l p ->
  (exists pre l' post q,
     winningLines = pre ++ l' :: post /\
     (forall l0, In l0 pre -> ~ complete (boardOrOwn self board_arg) l0) /\
     filledBy (boardOrOwn self board_arg) l' q /\
     isGameOver self board_arg = WIN (str q) l') /\
  (forall pre post,
     winningLines = pre ++ l :: post ->
     (forall l0, In l0 pre -> ~ complete (boardOrOwn self board_arg) l0) ->
     isGameOver self board_arg = WIN (str p) l).
Proof.
  intros Hlen Hin Hfilled.
  set (b := boardOrOwn self board_arg) in *.
  assert (Hwon : won (map (get b) l) = true).
  { apply (won_complete b l Hlen Hin). exists p. exact Hfilled. }
  assert (Hnot : forall pre post, winningLines = pre ++ post ->
            forall l0, In l0 pre -> ~ complete b l0 -> won (map (get b) l0) = false).
  { intros pre post Heq l0 Hl0 Hc.
    destruct (won (map (get b) l0)) eqn:E; [|reflexivity].
    exfalso. apply Hc. apply (won_complete b l0 Hlen); [|exact E].
    rewrite Heq. apply in_or_app. now left. }
  split.
  - destruct (checkLines_won b winningLines l Hin Hwon) as [r Hr].
    destruct (checkLines_split _ _ _ Hr) as (pre & l' & post & Heq & Hpre & Hw' & ->).
    assert (Hin' : In l' winningLines).
    { rewrite Heq. apply in_or_app. right. now left. }
    apply (won_complete b l' Hlen Hin') in Hw' as [q Hq].
    exists pre, l', post, q. split; [exact Heq|]. split.
    + intros l0 Hl0 Hc. apply (won_complete b l0 Hlen) in Hc.
      * rewrite (Hpre l0 Hl0) in Hc. discriminate.
      * rewrite Heq. apply in_or_app. now left.
    + split; [exact Hq|].
      rewrite (isGameOver_lines _ _ Hlen). fold b. rewrite Hr.
      rewrite (filledBy_hd b l' q); [reflexivity | | exact Hq].
      apply (winningLines_range _ Hin').
  - intros pre post Heq Hpre.
    rewrite (isGameOver_lines _ _ Hlen). fold b. rewrite Heq.
    rewrite checkLines_first; [| |exact Hwon].
    + rewrite (filledBy_hd b l p); [reflexivity | | exact Hfilled].
      apply (winningLines_range _ Hin).
    + intros l0 Hl0. apply (Hnot pre (l :: post) Heq l0 Hl0). auto.
Qed.

Lemma win_detection_first_line_witness :
  let b := ["O"; "O"; ""; "X"; "X"; "X"; ""; ""; ""] in
  length (boardOrOwn constructor (Some b)) = 9%nat /\
  In [3; 4; 5]%nat winningLines /\
  filledBy (boardOrOwn constructor (Some b)) [3; 4; 5]%nat "X" /\
  isGameOver constructor (Some b) = WIN (str "X") [3; 4; 5]%nat.
Proof.
  intros b.
  assert (Hin : In [3; 4; 5]%nat winningLines) by (simpl; auto).
  assert (Hf : filledBy (boardOrOwn constructor (Some b)) [3; 4; 5]%nat "X").
  { split; [discriminate|]. simpl.
    intros i [<- | [<- | [<- | []]]]; reflexivity. }
  split; [reflexivity|]. split; [exact Hin|]. split; [exact Hf|].
  destruct (win_detection_first_line constructor (Some b) [3; 4; 5]%nat "X"
              eq_refl Hin Hf) as [_ H].
  apply (H [[0; 1; 2]%nat] [[6; 7; 8]; [0; 3; 6]; [1; 4; 7]; [2; 5; 8];
                            [0; 4; 8]; [2; 4; 6]]%nat eq_refl).
  intros l0 [<- | []] (q & Hq & Hall).
  pose proof (Hall 0%nat (or_introl eq_refl)) as H0.
  pose proof (Hall 2%nat (or_intror (or_intror (or_introl eq_refl)))) as H2.
  simpl in H0, H2. congruence.
Defined.

(** C1. The self-play game from the initial instance, each side taking
    the slot the search gives it, is over after nine moves, whichever side
    moves first, and its result is a tie: no move of it ends in a win. *)
Theorem self_play_ends_in_tie (n : nat) :
  selfPlay (9 + n) constructor "X" "O"
  = Finished {| board := ["X"; "X"; "O"; "O"; "O"; "X"; "X"; "O"; "X"];
                humanPlayer := "O"; computerPlayer := "X"; gameOver := true |}
             TIE
  /\
  selfPlay (9 + n) constructor "O" "X"
  = Finished {| board := ["O"; "O"; "X"; "X"; "X"; "O"; "O"; "X"; "O"];
                humanPlayer := "X"; computerPlayer := "O"; gameOver := true |}
             TIE.
Proof. split; vm_compute; reflexivity. Qed.

(** * Further properties of the class *)

(** ** Slots *)

Lemma available_lookup (b : list string) (i : nat) :
  In i (availableFrom 0 b) <-> b !! i = Some "".
Proof.
  rewrite availableFrom_In, Nat.sub_0_r. split; [tauto | split; [lia | assumption]].
Qed.

(** X1. A slot is valid exactly when it is not negative and is one of the
    slots that [getAvailableSlots] returns for the instance's board. *)
Theorem isValidSlot_iff_available (self : TicTacToe) (slot : Z) :
  isValidSlot self slot = true <->
  0 <= slot /\ In (Z.to_nat slot) (getAvailableSlots self None).
Proof.
  rewrite isValidSlot_true. unfold getAvailableSlots. simpl boardOrOwn.
  rewrite available_lookup. split.
  - intros [[H0 _] Hc]. auto.
  - intros [H0 Hc]. split; [|assumption]. split; [assumption|].
    apply lookup_lt_Some in Hc. lia.
Qed.

Lemma availableFrom_insert_In (cells : list string) (k : nat) (p : string) :
  p <> "" ->
  forall i, In i (availableFrom 0 (<[k := p]> cells)) <->
            In i (availableFrom 0 cells) /\ i <> k.
Proof.
  intros Hp i. rewrite !available_lookup.
  destruct (Nat.eq_dec i k) as [->|Hne].
  - split; [|tauto]. intros H.
    destruct (lt_dec k (length cells)) as [Hlt|Hge].
    + rewrite list_lookup_insert_eq in H by assumption. congruence.
    + rewrite list_insert_ge in H by lia.
      apply lookup_lt_Some in H. lia.
  - rewrite list_lookup_insert_ne by congruence. tauto.
Qed.

(** X2. A successful [play] with a mark that is not empty takes exactly
    the played slot out of the available slots: the others stay
    available, none is added, and their number goes down by one. *)
Theorem play_removes_slot (self : TicTacToe) (slot : Z) (p : string) :
  gameOver self = false ->
  isValidSlot self slot = true ->
  p <> "" ->
  exists self' r,
    play self slot p = (self', Return r) /\
    (forall i, In i (getAvailableSlots self' None) <->
               In i (getAvailableSlots self None) /\ i <> Z.to_nat slot) /\
    S (length (getAvailableSlots self' None))
    = length (getAvailableSlots self None).
Proof.
  intros Hg Hv Hp.
  destruct (play_valid self slot p Hg Hv) as (self' & r & Hplay & Hb & _).
  apply isValidSlot_true in Hv as [_ Hc].
  exists self', r. split; [assumption|].
  unfold getAvailableSlots. simpl boardOrOwn. rewrite Hb. split.
  - apply availableFrom_insert_In. assumption.
  - apply availableFrom_insert; assumption.
Qed.

Lemma play_removes_slot_witness :
  let self := {| board := ["X"; "X"; ""; ""; "O"; "O"; ""; ""; ""];
                 humanPlayer := "O"; computerPlayer := "X";
                 gameOver := false |} in
  gameOver self = false /\ isValidSlot self 3 = true /\ "O" <> "" /\
  exists self' r,
    play self 3 "O" = (self', Return r) /\
    (forall i, In i (getAvailableSlots self' None) <->
               In i (getAvailableSlots self None) /\ i <> Z.to_nat 3) /\
    S (length (getAvailableSlots self' None))
    = length (getAvailableSlots self None).
Proof.
  intros self.
  assert (Hp : "O" <> "") by discriminate.
  split; [reflexivity|]. split; [reflexivity|]. split; [exact Hp|].
  exact (play_removes_slot self 3 "O" eq_refl eq_refl Hp).
Defined.

(** ** Classification *)

Lemma checkLines_None_complete (b : list string) :
  length b = 9%nat ->
  checkLines b winningLines = None <->
  forall l, In l winningLines -> ~ complete b l.
Proof.
  intros Hlen. rewrite checkLines_None. split.
  - intros H l Hl Hc. apply (won_complete b l Hlen Hl) in Hc.
    rewrite (H l Hl) in Hc. discriminate.
  - intros H l Hl. destruct (won (map (get b) l)) eqn:E; [|reflexivity].
    exfalso. apply (H l Hl). now apply (won_complete b l Hlen Hl).
Qed.

Lemma isGameOver_WIN_filled (self : TicTacToe) (board_arg : option (list string))
    (w : JsVal) (l : list nat) :
  length (boardOrOwn self board_arg) = 9%nat ->
  isGameOver self board_arg = WIN w l ->
  In l winningLines /\
  exists p, w = str p /\ filledBy (boardOrOwn self board_arg) l p.
Proof.
  intros Hlen H. rewrite (isGameOver_lines _ _ Hlen) in H.
  destruct (checkLines _ winningLines) as [r|] eqn:E.
  - subst r. apply checkLines_Some in E as (l' & Hin & Hwon & [= -> ->]).
    split; [assumption|].
    apply (won_complete _ _ Hlen Hin) in Hwon as [p Hp].
    exists p. split; [|assumption].
    apply filledBy_hd; [|assumption]. apply (winningLines_range _ Hin).
  - destruct (Nat.eqb _ 0); discriminate.
Qed.

Lemma available_nil_full (b : list string) :
  length (availableFrom 0 b) = 0%nat <-> countNonEmpty b = length b.
Proof. pose proof (availableFrom_length b 0). lia. Qed.

(** X3. A board of nine cells is classified as a tie exactly when none of
    the eight lines is filled with one same mark and no cell is empty. *)
Theorem tie_detection (self : TicTacToe) (board_arg : option (list string)) :
  length (boardOrOwn self board_arg) = 9%nat ->
  isGameOver self board_arg = TIE <->
  (forall l, In l winningLines -> ~ complete (boardOrOwn self board_arg) l) /\
  countNonEmpty (boardOrOwn self board_arg) = 9%nat.
Proof.
  intros Hlen. rewrite (isGameOver_lines _ _ Hlen).
  rewrite <- (checkLines_None_complete _ Hlen), <- Hlen at 1.
  rewrite <- available_nil_full.
  destruct (checkLines _ winningLines) as [r|] eqn:E.
  - apply checkLines_Some in E as (l' & _ & _ & ->).
    split; [discriminate | intros [[=] _]].
  - destruct (Nat.eqb_spec (length (availableFrom 0 (boardOrOwn self board_arg))) 0).
    + tauto.
    + split; [discriminate | tauto].
Qed.

Lemma tie_detection_witness :
  let b := ["O"; "X"; "X"; "X"; "O"; "O"; "X"; "O"; "X"] in
  length (boardOrOwn constructor (Some b)) = 9%nat /\
  isGameOver constructor (Some b) = TIE /\
  (forall l, In l winningLines -> ~ complete b l) /\
  countNonEmpty b = 9%nat.
Proof.
  intros b. split; [reflexivity|]. split; [reflexivity|].
  apply (tie_detection constructor (Some b) eq_refl). reflexivity.
Defined.

(** X4. A board of nine cells is classified as to be continued exactly
    when none of the eight lines is filled with one same mark and some
    cell is empty; the slots that come with the result are then the
    available slots. *)
Theorem continue_detection (self : TicTacToe) (board_arg : option (list string))
    (slots : list nat) :
  length (boardOrOwn self board_arg) = 9%nat ->
  isGameOver self board_arg = CONTINUE slots <->
  (forall l, In l winningLines -> ~ complete (boardOrOwn self board_arg) l) /\
  (countNonEmpty (boardOrOwn self board_arg) < 9)%nat /\
  slots = getAvailableSlots self board_arg.
Proof.
  intros Hlen. rewrite (isGameOver_lines _ _ Hlen).
  rewrite <- (checkLines_None_complete _ Hlen). unfold getAvailableSlots.
  pose proof (availableFrom_length (boardOrOwn self board_arg) 0) as Hcount.
  destruct (checkLines _ winningLines) as [r|] eqn:E.
  - apply checkLines_Some in E as (l' & _ & _ & ->).
    split; [discriminate | intros [[=] _]].
  - destruct (Nat.eqb_spec (length (availableFrom 0 (boardOrOwn self board_arg))) 0).
    + split; [discriminate | intros (_ & H & _); lia].
    + split.
      * intros [= <-]. repeat split; [lia].
      * intros (_ & _ & ->). reflexivity.
Qed.

Lemma continue_detection_witness :
  let b := ["X"; "X"; ""; ""; "O"; "O"; ""; ""; ""] in
  length (boardOrOwn constructor (Some b)) = 9%nat /\
  isGameOver constructor (Some b) = CONTINUE [2; 3; 6; 7; 8]%nat /\
  (forall l, In l winningLines -> ~ complete b l) /\
  (countNonEmpty b < 9)%nat /\
  [2; 3; 6; 7; 8]%nat = getAvailableSlots constructor (Some b).
Proof.
  intros b. split; [reflexivity|]. split; [reflexivity|].
  apply (continue_detection constructor (Some b) [2; 3; 6; 7; 8]%nat eq_refl).
  reflexivity.
Defined.

Lemma isGameOver_no_line (self : TicTacToe) (board_arg : option (list string)) :
  length (boardOrOwn self board_arg) = 9%nat ->
  (forall l, In l winningLines -> ~ complete (boardOrOwn self board_arg) l) ->
  isGameOver self board_arg =
  if Nat.eqb (length (availableFrom 0 (boardOrOwn self board_arg))) 0
  then TIE else CONTINUE (availableFrom 0 (boardOrOwn self board_arg)).
Proof.
  intros Hlen Hno. rewrite (isGameOver_lines _ _ Hlen).
  apply (checkLines_None_complete _ Hlen) in Hno. now rewrite Hno.
Qed.

Lemma isGameOver_CONTINUE_no_line (self : TicTacToe)
    (board_arg : option (list string)) (slots : list nat) :
  length (boardOrOwn self board_arg) = 9%nat ->
  isGameOver self board_arg = CONTINUE slots ->
  forall l, In l winningLines -> ~ complete (boardOrOwn self board_arg) l.
Proof.
  intros Hlen H. apply (checkLines_None_complete _ Hlen).
  rewrite (isGameOver_lines _ _ Hlen) in H.
  destruct (checkLines _ winningLines) as [r|] eqn:E; [|reflexivity].
  apply checkLines_Some in E as (l' & _ & _ & ->). discriminate.
Qed.

(** X5. Reads beyond the end of the array are [undefined], and three
    [undefined] cells pass the test of a won line: a board of fewer than
    three cells is classified as a win of [undefined], on the column that
    starts at the length of the board. *)
Theorem isGameOver_short_board (self : TicTacToe) (b : list string) :
  (length b < 3)%nat ->
  isGameOver self (Some b)
  = WIN undefined [length b; length b + 3; length b + 6]%nat.
Proof.
  intros Hlen.
  destruct b as [|c0 [|c1 [|c2 rest]]]; simpl in Hlen; try lia;
    cbv -[String.eqb]; rewrite ?String.eqb_refl;
    repeat match goal with
           | |- context [String.eqb ?x ?y] => destruct (String.eqb x y)
           end; reflexivity.
Qed.

Lemma isGameOver_short_board_witness :
  (length (@nil string) < 3)%nat /\
  isGameOver constructor (Some []) = WIN undefined [0; 3; 6]%nat /\
  isGameOver constructor (Some ["X"; "O"]) = WIN undefined [2; 5; 8]%nat.
Proof.
  split; [simpl; lia|]. split.
  - apply (isGameOver_short_board constructor []). simpl. lia.
  - apply (isGameOver_short_board constructor ["X"; "O"]). simpl. lia.
Defined.

(** ** reset *)

Lemma one_mark_no_line (k : nat) (p : string) (l : list nat) :
  In l winningLines ->
  ~ complete (<[k := p]> [""; ""; ""; ""; ""; ""; ""; ""; ""]) l.
Proof.
  rewrite winningLines_eq. intros Hl (q & Hq & Hall).
  assert (H : forall a b, In a l -> In b l -> a <> b ->
                (a < 9)%nat -> (b < 9)%nat -> False).
  { intros a b Ha Hb Hab Ha9 Hb9.
    destruct (Nat.eq_dec k a) as [->|Hka].
    - specialize (Hall b Hb). rewrite list_lookup_insert_ne in Hall by assumption.
      do 9 (destruct b as [|b]; [simpl in Hall; congruence|]). lia.
    - specialize (Hall a Ha). rewrite list_lookup_insert_ne in Hall by assumption.
      do 9 (destruct a as [|a]; [simpl in Hall; congruence|]). lia. }
  simpl in Hl.
  repeat (destruct Hl as [<- | Hl];
          [match goal with
           | H : forall a b, In a [?x; ?y; _] -> _ |- _ =>
               apply (H x y); simpl; auto; lia
           end|]).
  contradiction.
Qed.

(** X6. Whatever state an instance is in, after [reset] a first move with
    a mark that is not empty on any of the slots 0 to 8 is accepted: the
    board is the empty board with that one mark, the game is not over, and
    the result is to continue, with the eight other slots. *)
Theorem reset_then_play (self : TicTacToe) (slot : Z) (p : string) :
  0 <= slot <= 8 -> p <> "" ->
  exists self' slots,
    play (reset self) slot p = (self', Return (CONTINUE slots)) /\
    gameOver self' = false /\
    board self' = <[Z.to_nat slot := p]> [""; ""; ""; ""; ""; ""; ""; ""; ""] /\
    forall i, In i slots <-> (i < 9)%nat /\ i <> Z.to_nat slot.
Proof.
  intros Hslot Hp.
  assert (Hempty : forall i, (i < 9)%nat ->
            [""; ""; ""; ""; ""; ""; ""; ""; ""] !! i = Some "").
  { intros i Hi. do 9 (destruct i as [|i]; [reflexivity|]). lia. }
  assert (Hv : isValidSlot (reset self) slot = true).
  { apply isValidSlot_true. simpl. split; [lia|]. apply Hempty. lia. }
  destruct (play_valid (reset self) slot p eq_refl Hv)
    as (self' & r & Hplay & Hb & Hr & Hg).
  simpl in Hb.
  assert (Hlen : length (boardOrOwn self' None) = 9%nat).
  { simpl. rewrite Hb, length_insert. reflexivity. }
  rewrite (isGameOver_no_line self' None Hlen) in Hr.
  2:{ simpl. rewrite Hb. intros l. apply one_mark_no_line. }
  simpl boardOrOwn in Hr. rewrite Hb in Hr.
  assert (Hs9 : (Z.to_nat slot < 9)%nat) by lia.
  pose proof (availableFrom_insert [""; ""; ""; ""; ""; ""; ""; ""; ""] 0
                (Z.to_nat slot) p (Hempty _ Hs9) Hp) as Hcount.
  simpl length in Hcount at 2.
  destruct (Nat.eqb_spec
              (length (availableFrom 0
                 (<[Z.to_nat slot := p]> [""; ""; ""; ""; ""; ""; ""; ""; ""]))) 0)
    as [H0|_]; [lia|].
  subst r. eexists self', _. split; [exact Hplay|]. split; [exact Hg|].
  split; [exact Hb|].
  intros i. rewrite (availableFrom_insert_In _ _ _ Hp), available_lookup.
  split.
  - intros [Hi Hne]. split; [|assumption]. apply lookup_lt_Some in Hi. simpl in Hi. lia.
  - intros [Hi Hne]. split; [|assumption]. now apply Hempty.
Qed.

Lemma reset_then_play_witness :
  let over := {| board := ["X"; "X"; "X"; ""; "O"; "O"; ""; ""; ""];
                 humanPlayer := "O"; computerPlayer := "X";
                 gameOver := true |} in
  0 <= 4 <= 8 /\ "O" <> "" /\
  exists self' slots,
    play (reset over) 4 "O" = (self', Return (CONTINUE slots)) /\
    gameOver self' = false /\
    board self' = <[Z.to_nat 4 := "O"]> [""; ""; ""; ""; ""; ""; ""; ""; ""] /\
    forall i, In i slots <-> (i < 9)%nat /\ i <> Z.to_nat 4.
Proof.
  intros over.
  assert (Hs : 0 <= 4 <= 8) by lia.
  assert (Hp : "O" <> "") by discriminate.
  split; [exact Hs|]. split; [exact Hp|].
  exact (reset_then_play over 4 "O" Hs Hp).
Defined.

(** ** The instance from move to move *)

Lemma play_Return_inv (self : TicTacToe) (slot : Z) (p : string)
    (self' : TicTacToe) (r : GameResult) :
  play self slot p = (self', Return r) ->
  gameOver self = false /\ isValidSlot self slot = true.
Proof.
  unfold play. destruct (gameOver self); [discriminate|].
  destruct (isValidSlot self slot); simpl; [auto | discriminate].
Qed.

Lemma engineState_marks (self : TicTacToe) :
  engineState self -> humanPlayer self = "O" /\ computerPlayer self = "X".
Proof.
  induction 1 as [| self H IH | self slot player H IH]; [auto | auto |].
  unfold play. destruct (gameOver self); [exact IH|].
  destruct (negb (isValidSlot self slot)); [exact IH|].
  simpl. destruct (notContinue _); exact IH.
Qed.

(** X7. Through every sequence of [play] and [reset] from [constructor],
    thrown calls included, the board keeps nine cells, the two marks stay
    "O" and "X", and the flag [gameOver] is set exactly when the board is
    one that [isGameOver] classifies as a win or a tie. *)
Theorem flag_tracks_board (self : TicTacToe) :
  engineState self ->
  length (board self) = 9%nat /\
  humanPlayer self = "O" /\ computerPlayer self = "X" /\
  (gameOver self = true <->
   exists r, isGameOver self None = r /\ notContinue r = true) /\
  (gameOver self = false <->
   exists slots, isGameOver self None = CONTINUE slots).
Proof.
  intros H. destruct (engine_invariant self H) as [Hlen Hflag].
  destruct (engineState_marks self H) as [Hh Hc].
  repeat split; try assumption.
  - intros Hg. exists (isGameOver self None). split; [reflexivity | congruence].
  - intros (r & <- & Hr). congruence.
  - intros Hg. rewrite Hflag in Hg.
    destruct (isGameOver self None); try discriminate. eauto.
  - intros (slots & Hs). rewrite Hflag, Hs. reflexivity.
Qed.

Lemma flag_tracks_board_witness :
  let self := {| board := [""; ""; ""; ""; "O"; ""; ""; ""; ""];
                 humanPlayer := "O"; computerPlayer := "X";
                 gameOver := false |} in
  engineState self /\
  length (board self) = 9%nat /\
  humanPlayer self = "O" /\ computerPlayer self = "X" /\
  (gameOver self = true <->
   exists r, isGameOver self None = r /\ notContinue r = true) /\
  (gameOver self = false <->
   exists slots, isGameOver self None = CONTINUE slots).
Proof.
  intros self.
  assert (H : engineState self).
  { change self with (fst (play (fst (play constructor 4 "O")) 4 "X")).
    do 2 apply engine_play. apply engine_new. }
  split; [exact H|]. exact (flag_tracks_board self H).
Defined.

(** X8. On an instance reached from [constructor] by [play] and [reset],
    a win that [play] returns is always a win of the mark just played, on
    a line through the slot just played; and a move with a mark that is
    not empty that fills the last cell of a line whose other cells hold
    that mark is returned as a win of it. *)
Theorem play_reports_movers_win (self : TicTacToe) (slot : Z) (p : string)
    (self' : TicTacToe) (r : GameResult) :
  engineState self ->
  play self slot p = (self', Return r) ->
  (forall w l, r = WIN w l ->
     w = str p /\ In (Z.to_nat slot) l /\ filledBy (board self') l p) /\
  (p <> "" ->
   (exists l, In l winningLines /\ In (Z.to_nat slot) l /\
              forall i, In i l -> i <> Z.to_nat slot -> board self !! i = Some p) ->
   exists l', r = WIN (str p) l' /\ gameOver self' = true).
Proof.
  intros Hst Hplay.
  destruct (engine_invariant self Hst) as [Hlen Hflag].
  destruct (play_Return_inv _ _ _ _ _ Hplay) as [Hg Hv].
  destruct (play_valid self slot p Hg Hv) as (self2 & r2 & Hplay2 & Hb & Hr & Hg').
  rewrite Hplay in Hplay2. injection Hplay2 as <- <-.
  apply isValidSlot_true in Hv as [Hrange Hcell]. rewrite Hlen in Hrange.
  assert (Hlen' : length (boardOrOwn self' None) = 9%nat).
  { simpl. rewrite Hb, length_insert. exact Hlen. }
  assert (Hno : forall l, In l winningLines -> ~ complete (board self) l).
  { rewrite Hg in Hflag.
    destruct (isGameOver self None) as [| |slots] eqn:E; try discriminate.
    apply (isGameOver_CONTINUE_no_line self None slots Hlen E). }
  assert (Hnew : board self' !! Z.to_nat slot = Some p).
  { rewrite Hb. apply list_lookup_insert_eq. lia. }
  assert (Hwin : forall w l, r = WIN w l ->
            w = str p /\ In (Z.to_nat slot) l /\ filledBy (board self') l p).
  { intros w l Hw. rewrite Hw in Hr. symmetry in Hr.
    destruct (isGameOver_WIN_filled self' None w l Hlen' Hr)
      as (Hin & q & -> & Hq).
    simpl boardOrOwn in Hq.
    destruct (in_dec Nat.eq_dec (Z.to_nat slot) l) as [Hsl | Hsl].
    - destruct Hq as [Hqne Hall]. pose proof (Hall _ Hsl) as Hs.
      rewrite Hnew in Hs. injection Hs as <-.
      repeat split; assumption.
    - exfalso. apply (Hno l Hin). exists q. destruct Hq as [Hqne Hall].
      split; [assumption|]. intros i Hi. specialize (Hall i Hi).
      rewrite Hb, list_lookup_insert_ne in Hall; [assumption|].
      intros Heq. apply Hsl. rewrite Heq. exact Hi. }
  split; [exact Hwin|].
  intros Hp (l & Hin & Hsl & Hothers).
  assert (Hfilled : filledBy (board self') l p).
  { split; [assumption|]. intros i Hi.
    destruct (Nat.eq_dec i (Z.to_nat slot)) as [->|Hne]; [assumption|].
    rewrite Hb, list_lookup_insert_ne by congruence. auto. }
  assert (Hwon : won (map (get (board self')) l) = true).
  { apply (won_complete _ l Hlen' Hin). exists p. exact Hfilled. }
  destruct (checkLines_won _ _ _ Hin Hwon) as [r' Hr'].
  pose proof Hr' as Hr''.
  apply checkLines_Some in Hr'' as (l' & _ & _ & ->).
  rewrite (isGameOver_lines self' None Hlen') in Hr. simpl boardOrOwn in Hr.
  rewrite Hr' in Hr.
  destruct (Hwin _ _ Hr) as (Hw & _ & _).
  exists l'. rewrite Hg', Hr, Hw. split; reflexivity.
Qed.

Lemma play_reports_movers_win_witness :
  let self := {| board := ["X"; "X"; ""; ""; "O"; ""; ""; ""; "O"];
                 humanPlayer := "O"; computerPlayer := "X";
                 gameOver := false |} in
  let self' := {| board := ["X"; "X"; "X"; ""; "O"; ""; ""; ""; "O"];
                  humanPlayer := "O"; computerPlayer := "X";
                  gameOver := true |} in
  engineState self /\
  play self 2 "X" = (self', Return (WIN (str "X") [0; 1; 2]%nat)) /\
  (forall w l, WIN (str "X") [0; 1; 2]%nat = WIN w l ->
     w = str "X" /\ In (Z.to_nat 2) l /\ filledBy (board self') l "X").
Proof.
  intros self self'.
  assert (H : engineState self).
  { change self with
      (fst (play (fst (play (fst (play (fst (play constructor
         4 "O")) 0 "X")) 8 "O")) 1 "X")).
    do 4 apply engine_play. apply engine_new. }
  assert (Hplay : play self 2 "X" = (self', Return (WIN (str "X") [0; 1; 2]%nat)))
    by reflexivity.
  split; [exact H|]. split; [exact Hplay|].
  exact (proj1 (play_reports_movers_win self 2 "X" self'
                  (WIN (str "X") [0; 1; 2]%nat) H Hplay)).
Defined.

(** X9. With the two marks not empty, [getNextBestSlot] returns, and what
    it returns is [undefined] exactly when the board is a win or a tie. *)
Theorem getNextBestSlot_undefined_iff (self : TicTacToe) :
  humanPlayer self <> "" -> computerPlayer self <> "" ->
  exists s,
    getNextBestSlot self = Some (self, s) /\
    (s = None <-> notContinue (isGameOver self None) = true).
Proof.
  intros Hh Hc. unfold getNextBestSlot.
  destruct (minimax_total self Hh Hc (S (length (board self)))
              (board self) (computerPlayer self) MIN MAX 0 Hc)
    as (m & r & -> & _ & _ & Hslot).
  { pose proof (available_le_length (board self)). lia. }
  exists (slot m). split; [reflexivity|].
  rewrite isGameOver_default.
  destruct (isGameOver self (Some (board self))) as [w l| |slots]; simpl.
  - tauto.
  - tauto.
  - destruct Hslot as (s & -> & _). split; discriminate.
Qed.

Lemma getNextBestSlot_undefined_iff_witness :
  let self := {| board := ["X"; "X"; "X"; ""; "O"; "O"; ""; ""; ""];
                 humanPlayer := "O"; computerPlayer := "X";
                 gameOver := true |} in
  humanPlayer self <> "" /\ computerPlayer self <> "" /\
  getNextBestSlot self = Some (self, None) /\
  exists s,
    getNextBestSlot self = Some (self, s) /\
    (s = None <-> notContinue (isGameOver self None) = true).
Proof.
  intros self.
  assert (Hh : humanPlayer self <> "") by discriminate.
  assert (Hc : computerPlayer self <> "") by discriminate.
  split; [exact Hh|]. split; [exact Hc|]. split; [reflexivity|].
  exact (getNextBestSlot_undefined_iff self Hh Hc).
Defined.

(** ** display *)

Lemma append_comma_inj (a a' r r' : string) :
  commaFree a = true -> commaFree a' = true ->
  (a ++ String ","%char r)%string = (a' ++ String ","%char r')%string ->
  a = a' /\ r = r'.
Proof.
  revert a'. induction a as [|c a IH]; intros [|c' a']; simpl; intros Ha Ha' H.
  - injection H as ->. auto.
  - injection H as <- _. discriminate.
  - injection H as -> _. discriminate.
  - injection H as <- H. apply andb_true_iff in Ha as [_ Ha].
    apply andb_true_iff in Ha' as [_ Ha'].
    destruct (IH a' Ha Ha' H) as [-> ->]. auto.
Qed.

Lemma append_bar_inj (c c' : string) :
  (c ++ "|")%string = (c' ++ "|")%string -> c = c'.
Proof.
  revert c'. induction c as [|x c IH]; intros [|x' c']; simpl; intros H.
  - reflexivity.
  - injection H as _ H. destruct c'; discriminate.
  - injection H as _ H. destruct c; discriminate.
  - injection H as -> H. f_equal. now apply IH.
Qed.

Lemma display_nine (self : TicTacToe) (c0 c1 c2 c3 c4 c5 c6 c7 c8 : string) :
  board self = [c0; c1; c2; c3; c4; c5; c6; c7; c8] ->
  display self =
  [("|" ++ c0 ++ "," ++ c1 ++ "," ++ c2 ++ "|")%string;
   ("|" ++ c3 ++ "," ++ c4 ++ "," ++ c5 ++ "|")%string;
   ("|" ++ c6 ++ "," ++ c7 ++ "," ++ c8 ++ "|")%string].
Proof. unfold display. intros ->. reflexivity. Qed.

Lemma display_line_inj (a b c a' b' c' : string) :
  commaFree a = true -> commaFree b = true ->
  commaFree a' = true -> commaFree b' = true ->
  (a ++ String ","%char (b ++ String ","%char (c ++ "|")))%string
  = (a' ++ String ","%char (b' ++ String ","%char (c' ++ "|")))%string ->
  a = a' /\ b = b' /\ c = c'.
Proof.
  intros Ha Hb Ha' Hb' H.
  apply append_comma_inj in H as [-> H]; try assumption.
  apply append_comma_inj in H as [-> H]; try assumption.
  apply append_bar_inj in H. auto.
Qed.

(** X10. On a board of nine cells [display] logs three lines, one for
    each row; and when no mark holds a comma, the lines tell the board:
    two such boards logged as the same lines are the same. *)
Theorem display_tells_board (self self' : TicTacToe) :
  length (board self) = 9%nat -> length (board self') = 9%nat ->
  (forall c, In c (board self) -> commaFree c = true) ->
  (forall c, In c (board self') -> commaFree c = true) ->
  length (display self) = 3%nat /\
  (display self = display self' -> board self = board self').
Proof.
  intros Hlen Hlen' Hfree Hfree'.
  destruct (board self) as [|c0 [|c1 [|c2 [|c3 [|c4 [|c5 [|c6 [|c7 [|c8 [|]]]]]]]]]]
    eqn:Hb; try discriminate.
  destruct (board self') as [|d0 [|d1 [|d2 [|d3 [|d4 [|d5 [|d6 [|d7 [|d8 [|]]]]]]]]]]
    eqn:Hb'; try discriminate.
  rewrite (display_nine self _ _ _ _ _ _ _ _ _ Hb),
          (display_nine self' _ _ _ _ _ _ _ _ _ Hb').
  split; [reflexivity|].
  intros [= H1 H2 H3].
  apply display_line_inj in H1 as (-> & -> & ->);
    try solve [apply Hfree; simpl; tauto | apply Hfree'; simpl; tauto].
  apply display_line_inj in H2 as (-> & -> & ->);
    try solve [apply Hfree; simpl; tauto | apply Hfree'; simpl; tauto].
  apply display_line_inj in H3 as (-> & -> & ->);
    try solve [apply Hfree; simpl; tauto | apply Hfree'; simpl; tauto].
  reflexivity.
Qed.

Lemma display_tells_board_witness :
  let self := {| board := ["X"; "X"; ""; ""; "O"; "O"; ""; ""; ""];
                 humanPlayer := "O"; computerPlayer := "X";
                 gameOver := false |} in
  display self = ["|X,X,|"; "|,O,O|"; "|,,|"] /\
  length (display self) = 3%nat /\
  (display self = display constructor -> board self = board constructor).
Proof.
  intros self. split; [reflexivity|].
  apply (display_tells_board self constructor); try reflexivity;
    simpl; intros c Hc;
    repeat (destruct Hc as [<- | Hc]; [reflexivity|]); contradiction.
Defined.

(** ** The computer's replies *)

Lemma boardEqb_eq (a b : list string) : boardEqb a b = true -> a = b.
Proof.
  revert b. induction a as [|x a IH]; intros [|y b]; simpl; try discriminate.
  - reflexivity.
  - intros H. apply andb_true_iff in H as [Hx Hab].
    apply String.eqb_eq in Hx. f_equal; auto.
Qed.

Lemma instanceEqb_eq (a b : TicTacToe) : instanceEqb a b = true -> a = b.
Proof.
  unfold instanceEqb. rewrite !andb_true_iff.
  intros [[[Hb Hh] Hc] Hg].
  apply boardEqb_eq in Hb. apply String.eqb_eq in Hh, Hc.
  apply Bool.eqb_prop in Hg.
  destruct a, b; simpl in *. congruence.
Qed.

Lemma member_In (g : TicTacToe) (l : list TicTacToe) :
  member g l = true -> In g l.
Proof.
  unfold member. rewrite existsb_exists. intros (x & Hx & Heq).
  apply instanceEqb_eq in Heq. congruence.
Qed.

(** A click on a slot that is not valid is every such click. *)
Lemma gameStep_invalid (g : TicTacToe) (slot : Z) :
  isValidSlot g slot = false -> gameStep g slot = gameStep g (-1).
Proof.
  intros Hv. unfold gameStep, play.
  destruct (gameOver g) eqn:Hg; [reflexivity|].
  rewrite Hv. reflexivity.
Qed.

Lemma valid_in_clicksOf (g : TicTacToe) (slot : Z) :
  isValidSlot g slot = true -> In slot (clicksOf g).
Proof.
  intros Hv. unfold clicksOf. right.
  apply isValidSlot_true in Hv as [Hr Hc].
  apply in_map_iff. exists (Z.to_nat slot). split; [lia|].
  unfold getAvailableSlots. simpl boardOrOwn. apply availableFrom_In.
  rewrite Nat.sub_0_r. split; [lia | assumption].
Qed.

Lemma closedStates_sound (states : list TicTacToe) :
  closedStates states = true ->
  forall g, gameState g -> In g states /\ goodState g = true.
Proof.
  unfold closedStates. rewrite andb_true_iff, forallb_forall.
  intros [Hnew Hall].
  assert (Hgood : forall g, In g states -> goodState g = true).
  { intros g Hin. specialize (Hall g Hin).
    apply andb_true_iff in Hall. tauto. }
  assert (Hmem : forall g, gameState g -> In g states).
  { intros g Hg.
    induction Hg as [| g Hg IH | g slot g' Hg IH Hstep].
    - now apply member_In.
    - pose proof (Hgood g IH) as Hgd. unfold goodState in Hgd.
      rewrite !andb_true_iff in Hgd. destruct Hgd as [[_ Hh] Hc].
      apply String.eqb_eq in Hh, Hc.
      replace (reset g) with constructor; [now apply member_In|].
      unfold reset, initialize, constructor. simpl in *. now rewrite Hh, Hc.
    - specialize (Hall g IH). rewrite andb_true_iff, forallb_forall in Hall.
      destruct Hall as [_ Hsteps].
      assert (Hin : exists c, In c (clicksOf g) /\ gameStep g c = Some g').
      { destruct (isValidSlot g slot) eqn:Hv.
        - exists slot. split; [now apply valid_in_clicksOf | assumption].
        - exists (-1). split; [now left|].
          now rewrite <- (gameStep_invalid g slot Hv). }
      destruct Hin as (c & Hc & Hgc). specialize (Hsteps c Hc).
      rewrite Hgc in Hsteps. now apply member_In. }
  intros g Hg. split; [now apply Hmem | apply Hgood; now apply Hmem].
Qed.

Lemma allStates_closed : closedStates allStates = true.
Proof. vm_compute. reflexivity. Qed.

Lemma gameState_facts (g : TicTacToe) :
  gameState g ->
  humanWon g = false /\ length (board g) = 9%nat /\
  (forall c, In c (board g) -> c = "" \/ c = "O" \/ c = "X") /\
  humanPlayer g = "O" /\ computerPlayer g = "X".
Proof.
  intros Hg.
  destruct (closedStates_sound allStates allStates_closed g Hg) as [_ Hgood].
  unfold goodState in Hgood. rewrite !andb_true_iff in Hgood.
  destruct Hgood as [[[[Hw Hlen] Hcells] Hh] Hcp].
  apply negb_true_iff in Hw. apply Nat.eqb_eq in Hlen.
  apply String.eqb_eq in Hh, Hcp. rewrite forallb_forall in Hcells.
  repeat split; try assumption.
  intros c Hc. specialize (Hcells c Hc).
  rewrite !orb_true_iff, !String.eqb_eq in Hcells. tauto.
Qed.

(** In the game as [cellClicked] drives it no board is a win of the human
    player: every win that is reported is a win of "X". *)
Lemma computer_never_loses (g : TicTacToe) :
  gameState g ->
  forall w l, isGameOver g None = WIN w l -> w = str "X".
Proof.
  intros Hg w l Hw.
  destruct (gameState_facts g Hg) as (Hhw & Hlen & Hcells & Hh & Hc).
  unfold humanWon in Hhw. rewrite Hw, Hh in Hhw.
  destruct (isGameOver_WIN_filled g None w l Hlen Hw) as (Hin & q & -> & Hq).
  destruct Hq as [Hne Hall]. destruct (winningLines_range l Hin) as [Hl _].
  destruct l as [|i l]; [congruence|].
  pose proof (Hall i (or_introl eq_refl)) as Hi. simpl in Hi.
  apply list_elem_of_lookup_2, list_elem_of_In in Hi.
  destruct (Hcells q Hi) as [-> | [-> | ->]];
    [congruence | discriminate | reflexivity].
Qed.

(** * Properties of the gameplay functions *)

Lemma play_Throw_same (self : TicTacToe) (slot : Z) (p : string)
    (self' : TicTacToe) (e : Error) :
  play self slot p = (self', Throw e) ->
  self' = self /\
  (gameOver self = true /\ e = InvalidStateError
   \/ gameOver self = false /\ isValidSlot self slot = false /\
      e = InvalidMoveError slot).
Proof.
  unfold play. destruct (gameOver self); [intros [= <- <-]; auto|].
  destruct (isValidSlot self slot); simpl; [discriminate|].
  intros [= <- <-]. auto.
Qed.

Lemma play_marks (self : TicTacToe) (slot : Z) (p : string) :
  humanPlayer (fst (play self slot p)) = humanPlayer self /\
  computerPlayer (fst (play self slot p)) = computerPlayer self.
Proof.
  unfold play. destruct (gameOver self); [auto|].
  destruct (negb (isValidSlot self slot)); [auto|].
  simpl. destruct (notContinue _); auto.
Qed.

Lemma gplay_failure (pg : Gameplay.Page) (k : nat) (c : Gameplay.Cell)
    (p : string) (g' : TicTacToe) (e : Error) :
  Gameplay.cells pg !! k = Some c ->
  play (Gameplay.GAME pg) (Gameplay.id c) p = (g', Throw e) ->
  Gameplay.play (Some k) p pg = (Gameplay.log (Gameplay.LogError e) pg, false).
Proof.
  intros Hc Hp. unfold Gameplay.play, Gameplay.element. now rewrite Hc, Hp.
Qed.

Lemma gplay_success (pg : Gameplay.Page) (k : nat) (c : Gameplay.Cell)
    (p : string) (g' : TicTacToe) (r : GameResult) :
  Gameplay.cells pg !! k = Some c ->
  play (Gameplay.GAME pg) (Gameplay.id c) p = (g', Return r) ->
  Gameplay.play (Some k) p pg =
  ({| Gameplay.GAME := g';
      Gameplay.cells :=
        <[k := {| Gameplay.id := Gameplay.id c; Gameplay.textContent := p |}]>
          (Gameplay.cells pg);
      Gameplay.feedbackBox := statusText g';
      Gameplay.restartGameButton_dnone :=
        if gameOver g' then Gameplay.restartGameButton_dnone pg else false;
      Gameplay.gameOverGlobal := Gameplay.gameOverGlobal pg;
      Gameplay.console := Gameplay.console pg |},
   gameOver g').
Proof.
  intros Hc Hp.
  destruct (play_Return_inv _ _ _ _ _ Hp) as [Hg Hv].
  destruct (play_valid _ _ p Hg Hv) as (g2 & r2 & Hp2 & _ & Hr & Hflag).
  rewrite Hp in Hp2. injection Hp2 as <- <-.
  unfold Gameplay.play, Gameplay.element. rewrite Hc, Hp. simpl.
  unfold statusText. rewrite <- Hr. rewrite Hflag.
  destruct r; reflexivity.
Qed.

Lemma nineCells_lookup (cs : list Gameplay.Cell) (k : nat) (c : Gameplay.Cell) :
  nineCells cs -> cs !! k = Some c ->
  (k < 9)%nat /\ Gameplay.id c = Z.of_nat k.
Proof.
  unfold nineCells. intros Hn Hc.
  assert (Hid : map Gameplay.id cs !! k = Some (Gameplay.id c)).
  { change (map Gameplay.id cs) with (Gameplay.id <$> cs).
    rewrite list_lookup_fmap, Hc. reflexivity. }
  rewrite Hn in Hid.
  do 9 (destruct k as [|k]; [injection Hid as <-; split; [lia | reflexivity]|]).
  discriminate.
Qed.

Lemma nineCells_length (cs : list Gameplay.Cell) :
  nineCells cs -> length cs = 9%nat.
Proof.
  unfold nineCells. intros H. apply (f_equal (@length Z)) in H.
  rewrite length_map in H. exact H.
Qed.

Lemma nineCells_insert (cs : list Gameplay.Cell) (k : nat) (c : Gameplay.Cell)
    (t : string) :
  nineCells cs -> cs !! k = Some c ->
  nineCells (<[k := {| Gameplay.id := Gameplay.id c; Gameplay.textContent := t |}]> cs).
Proof.
  unfold nineCells. intros Hn Hc. rewrite <- Hn.
  change map with (@fmap list _) at 1 2. rewrite list_fmap_insert. simpl.
  apply list_insert_id. rewrite list_lookup_fmap, Hc. reflexivity.
Qed.

Lemma text_insert (cs : list Gameplay.Cell) (k : nat) (i : Z) (t : string) :
  map Gameplay.textContent
      (<[k := {| Gameplay.id := i; Gameplay.textContent := t |}]> cs)
  = <[k := t]> (map Gameplay.textContent cs).
Proof. change map with (@fmap list _). now rewrite list_fmap_insert. Qed.

Lemma insert_not_empty (b : list string) (k : nat) (p : string) :
  (k < length b)%nat -> p <> "" -> length b = 9%nat ->
  <[k := p]> b <> emptyBoard.
Proof.
  intros Hk Hp Hlen Heq.
  assert (H : <[k := p]> b !! k = Some p) by now apply list_lookup_insert_eq.
  rewrite Heq in H. unfold emptyBoard in H.
  do 9 (destruct k as [|k]; [simpl in H; congruence|]). discriminate.
Qed.

(** One call of [Gameplay.play] keeps [pageInv]. *)
Lemma gplay_pageInv (pg : Gameplay.Page) (cell : option nat) (p : string) :
  pageInv pg -> p <> "" -> pageInv (fst (Gameplay.play cell p pg)).
Proof.
  intros (Hn & Hsync & Hlen & Hfl & Hh & Hc & Hfb & Hdn) Hp.
  assert (Hsame : forall e, pageInv (Gameplay.log e pg)).
  { intros e. unfold pageInv. simpl. auto 10. }
  destruct (Gameplay.element pg cell) as [[k c]|] eqn:He.
  2:{ unfold Gameplay.play. rewrite He. apply Hsame. }
  assert (Hc' : cell = Some k /\ Gameplay.cells pg !! k = Some c).
  { unfold Gameplay.element in He. destruct cell as [k'|]; [|discriminate].
    destruct (Gameplay.cells pg !! k') eqn:E; [|discriminate].
    injection He as -> ->. auto. }
  destruct Hc' as [-> Hcell].
  destruct (nineCells_lookup _ _ _ Hn Hcell) as [Hk Hid].
  destruct (play (Gameplay.GAME pg) (Gameplay.id c) p) as [g' [r|e]] eqn:Hplay.
  2:{ rewrite (gplay_failure _ _ _ _ _ _ Hcell Hplay). apply Hsame. }
  rewrite (gplay_success _ _ _ _ _ _ Hcell Hplay). simpl.
  destruct (play_Return_inv _ _ _ _ _ Hplay) as [Hg Hv].
  destruct (play_valid _ _ p Hg Hv) as (g2 & r2 & Hp2 & Hb & Hr & Hflag).
  rewrite Hplay in Hp2. injection Hp2 as <- <-.
  rewrite Hid, Nat2Z.id in Hb.
  assert (Hmarks : humanPlayer g' = "O" /\ computerPlayer g' = "X").
  { pose proof (play_marks (Gameplay.GAME pg) (Gameplay.id c) p) as Hm.
    rewrite Hplay in Hm. simpl in Hm. destruct Hm as [-> ->]. auto. }
  assert (Hlen' : length (board g') = 9%nat)
    by (rewrite Hb, length_insert; exact Hlen).
  assert (Hne : board g' <> emptyBoard).
  { rewrite Hb. apply insert_not_empty; [lia | assumption | assumption]. }
  unfold pageInv. simpl.
  split; [now apply nineCells_insert|].
  split; [rewrite text_insert, Hsync, Hb; reflexivity|].
  split; [exact Hlen'|].
  split; [rewrite Hflag, Hr; reflexivity|].
  split; [tauto|]. split; [tauto|].
  split; [right; auto|].
  destruct (gameOver g') eqn:Hover; [|discriminate].
  intros Hd. specialize (Hdn Hd). exfalso.
  assert (Hcont : isGameOver g' None =
            if Nat.eqb (length (availableFrom 0 (boardOrOwn g' None))) 0
            then TIE else CONTINUE (availableFrom 0 (boardOrOwn g' None))).
  { apply isGameOver_no_line; [exact Hlen'|].
    simpl. rewrite Hb, Hdn. intros l. apply one_mark_no_line. }
  simpl boardOrOwn in Hcont. rewrite Hb, Hdn in Hcont.
  assert (Hk9 : emptyBoard !! k = Some "").
  { unfold emptyBoard. do 9 (destruct k as [|k]; [reflexivity|]). lia. }
  pose proof (availableFrom_insert emptyBoard 0 k p Hk9 Hp) as Hcount.
  simpl length in Hcount at 2.
  assert (Hpos : Nat.eqb (length (availableFrom 0 (<[k := p]> emptyBoard))) 0
                 = false) by (apply Nat.eqb_neq; lia).
  rewrite Hpos in Hcont.
  rewrite Hr, Hcont in Hflag. discriminate.
Qed.

Lemma restart_pageInv (pg : Gameplay.Page) :
  nineCells (Gameplay.cells pg) ->
  humanPlayer (Gameplay.GAME pg) = "O" ->
  computerPlayer (Gameplay.GAME pg) = "X" ->
  pageInv (Gameplay.restartGame pg).
Proof.
  intros Hn Hh Hc. pose proof (nineCells_length _ Hn) as Hlen.
  unfold pageInv, nineCells in *. simpl.
  destruct (Gameplay.cells pg)
    as [|c0 [|c1 [|c2 [|c3 [|c4 [|c5 [|c6 [|c7 [|c8 [|]]]]]]]]]];
    try discriminate.
  simpl in *. repeat split; auto.
Qed.

(** [getNextBestSlot] on a position to be continued, in the form the
    gameplay uses it. *)
Lemma getNextBestSlot_slot (self : TicTacToe) :
  humanPlayer self <> "" -> computerPlayer self <> "" ->
  gameOver self = notContinue (isGameOver self None) ->
  gameOver self = false ->
  exists s, getNextBestSlot self = Some (self, Some s) /\
            board self !! s = Some "".
Proof.
  intros Hh Hc Hflag Hg. unfold getNextBestSlot.
  destruct (minimax_total self Hh Hc (S (length (board self)))
              (board self) (computerPlayer self) MIN MAX 0 Hc)
    as (m & r & -> & _ & _ & Hslot).
  { pose proof (available_le_length (board self)). lia. }
  rewrite Hg, isGameOver_default in Hflag.
  destruct (isGameOver self (Some (board self))) as [| |slots] eqn:E;
    try discriminate.
  destruct Hslot as (s & -> & Hin). exists s. split; [reflexivity|].
  destruct (isGameOver_CONTINUE _ _ _ E) as [-> _].
  now apply available_lookup.
Qed.

Lemma cellClicked_unfold (target : nat) (pg : Gameplay.Page) :
  Gameplay.cellClicked target pg =
  let pg1 := fst (Gameplay.play (Some target)
                    (humanPlayer (Gameplay.GAME pg)) pg) in
  if gameOver (Gameplay.GAME pg1) then Some pg1 else reply pg1.
Proof. reflexivity. Qed.

Lemma withGAME_same (pg : Gameplay.Page) :
  Gameplay.withGAME (Gameplay.GAME pg) pg = pg.
Proof. destruct pg; reflexivity. Qed.

Lemma reply_spec (pg1 : Gameplay.Page) :
  pageInv pg1 -> gameOver (Gameplay.GAME pg1) = false ->
  exists s pg',
    reply pg1 = Some pg' /\
    getNextBestSlot (Gameplay.GAME pg1) = Some (Gameplay.GAME pg1, Some s) /\
    board (Gameplay.GAME pg1) !! s = Some "" /\
    Gameplay.GAME pg' = fst (play (Gameplay.GAME pg1) (Z.of_nat s) "X") /\
    board (Gameplay.GAME pg') = <[s := "X"]> (board (Gameplay.GAME pg1)) /\
    Gameplay.console pg' = Gameplay.console pg1 /\
    pageInv pg'.
Proof.
  intros Hinv Hg.
  pose proof Hinv as (Hn & Hsync & Hlen & Hfl & Hh & Hc & Hfb & Hdn).
  destruct (getNextBestSlot_slot (Gameplay.GAME pg1)) as (s & Hbest & Hs);
    try assumption; try (rewrite ?Hh, ?Hc; discriminate).
  assert (Hs9 : (s < 9)%nat) by (apply lookup_lt_Some in Hs; lia).
  destruct (Gameplay.cells pg1 !! s) as [c|] eqn:Hcell.
  2:{ apply lookup_ge_None in Hcell. rewrite (nineCells_length _ Hn) in Hcell. lia. }
  destruct (nineCells_lookup _ _ _ Hn Hcell) as [_ Hid].
  assert (Hv : isValidSlot (Gameplay.GAME pg1) (Z.of_nat s) = true).
  { apply isValidSlot_true. rewrite Nat2Z.id. split; [lia | assumption]. }
  destruct (play_valid _ _ "X" Hg Hv) as (g' & r & Hplay & Hb & _).
  rewrite Nat2Z.id in Hb.
  pose proof (gplay_pageInv pg1 (Some s) "X" Hinv ltac:(discriminate)) as Hinv'.
  unfold reply. rewrite Hbest, withGAME_same, Hc.
  rewrite <- Hid in Hplay.
  rewrite (gplay_success _ _ _ _ _ _ Hcell Hplay) in *. simpl in Hinv'.
  eexists s, _. split; [reflexivity|]. simpl.
  rewrite <- Hid, Hplay. simpl.
  split; [reflexivity|]. split; [exact Hs|]. split; [reflexivity|].
  split; [exact Hb|]. split; [reflexivity|]. exact Hinv'.
Qed.

(** A click when the game is over. *)
Lemma click_over (pg : Gameplay.Page) (k : nat) (c : Gameplay.Cell) :
  Gameplay.cells pg !! k = Some c ->
  gameOver (Gameplay.GAME pg) = true ->
  Gameplay.cellClicked k pg
  = Some (Gameplay.log (Gameplay.LogError InvalidStateError) pg).
Proof.
  intros Hcell Hg. rewrite cellClicked_unfold.
  assert (Hplay : play (Gameplay.GAME pg) (Gameplay.id c)
                    (humanPlayer (Gameplay.GAME pg))
                  = (Gameplay.GAME pg, Throw InvalidStateError)).
  { unfold play. now rewrite Hg. }
  rewrite (gplay_failure _ _ _ _ _ _ Hcell Hplay). simpl. now rewrite Hg.
Qed.

(** A click on a cell whose slot is not valid, the game not being over:
    the move is refused and logged, and the computer moves. *)
Lemma click_rejected (pg : Gameplay.Page) (k : nat) :
  pageInv pg -> (k < 9)%nat ->
  gameOver (Gameplay.GAME pg) = false ->
  isValidSlot (Gameplay.GAME pg) (Z.of_nat k) = false ->
  exists s pg',
    Gameplay.cellClicked k pg = Some pg' /\
    getNextBestSlot (Gameplay.GAME pg) = Some (Gameplay.GAME pg, Some s) /\
    board (Gameplay.GAME pg) !! s = Some "" /\
    Gameplay.GAME pg' = fst (play (Gameplay.GAME pg) (Z.of_nat s) "X") /\
    board (Gameplay.GAME pg') = <[s := "X"]> (board (Gameplay.GAME pg)) /\
    Gameplay.console pg'
    = Gameplay.console pg ++ [Gameplay.LogError (InvalidMoveError (Z.of_nat k))] /\
    pageInv pg'.
Proof.
  intros Hinv Hk Hg Hv.
  pose proof Hinv as (Hn & _).
  destruct (Gameplay.cells pg !! k) as [c|] eqn:Hcell.
  2:{ apply lookup_ge_None in Hcell. rewrite (nineCells_length _ Hn) in Hcell. lia. }
  destruct (nineCells_lookup _ _ _ Hn Hcell) as [_ Hid].
  assert (Hplay : play (Gameplay.GAME pg) (Gameplay.id c)
                    (humanPlayer (Gameplay.GAME pg))
                  = (Gameplay.GAME pg, Throw (InvalidMoveError (Z.of_nat k)))).
  { unfold play. rewrite Hg, Hid, Hv. reflexivity. }
  rewrite cellClicked_unfold, (gplay_failure _ _ _ _ _ _ Hcell Hplay). simpl.
  rewrite Hg.
  destruct (reply_spec (Gameplay.log (Gameplay.LogError
                          (InvalidMoveError (Z.of_nat k))) pg))
    as (s & pg' & Hr & Hbest & Hs & HG & Hb & Hcon & Hinv').
  { unfold pageInv in *. simpl. exact Hinv. }
  { exact Hg. }
  exists s, pg'. simpl in *. auto 10.
Qed.

(** A click on a cell whose slot is valid, the game not being over: the
    human's mark is placed; unless that ends the game, the computer
    moves. *)
Lemma click_accepted (pg : Gameplay.Page) (k : nat) :
  pageInv pg -> (k < 9)%nat ->
  gameOver (Gameplay.GAME pg) = false ->
  isValidSlot (Gameplay.GAME pg) (Z.of_nat k) = true ->
  exists g1 pg',
    Gameplay.cellClicked k pg = Some pg' /\
    g1 = fst (play (Gameplay.GAME pg) (Z.of_nat k) "O") /\
    board g1 = <[k := "O"]> (board (Gameplay.GAME pg)) /\
    Gameplay.console pg' = Gameplay.console pg /\
    pageInv pg' /\
    (if gameOver g1 then Gameplay.GAME pg' = g1
     else exists s,
       getNextBestSlot g1 = Some (g1, Some s) /\
       board g1 !! s = Some "" /\
       Gameplay.GAME pg' = fst (play g1 (Z.of_nat s) "X") /\
       board (Gameplay.GAME pg') = <[s := "X"]> (board g1)).
Proof.
  intros Hinv Hk Hg Hv.
  pose proof Hinv as (Hn & _ & _ & _ & Hh & _).
  destruct (Gameplay.cells pg !! k) as [c|] eqn:Hcell.
  2:{ apply lookup_ge_None in Hcell. rewrite (nineCells_length _ Hn) in Hcell. lia. }
  destruct (nineCells_lookup _ _ _ Hn Hcell) as [_ Hid].
  destruct (play_valid _ _ "O" Hg Hv) as (g1 & r & Hplay & Hb & _).
  rewrite Nat2Z.id in Hb.
  pose proof (gplay_pageInv pg (Some k) "O" Hinv ltac:(discriminate)) as Hinv1.
  rewrite cellClicked_unfold, Hh.
  pose proof Hplay as Hplay'. rewrite <- Hid in Hplay'.
  rewrite (gplay_success _ _ _ _ _ _ Hcell Hplay') in *. simpl fst in *.
  cbv zeta. simpl Gameplay.GAME at 1.
  exists g1. rewrite Hplay. simpl fst.
  destruct (gameOver g1) eqn:Hover.
  - eexists. split; [reflexivity|]. simpl. auto 10.
  - match goal with
    | |- context [reply ?p] =>
        destruct (reply_spec p Hinv1 Hover)
          as (s & pg' & Hr & Hbest & Hs & HG & Hb' & Hcon & Hinv')
    end.
    exists pg'. simpl in *. split; [exact Hr|]. split; [reflexivity|].
    split; [exact Hb|]. split; [exact Hcon|]. split; [exact Hinv'|].
    exists s. auto.
Qed.

(** What a click does to the instance is a step of the game. *)
Lemma cellClicked_gameStep (pg : Gameplay.Page) (k : nat) (pg' : Gameplay.Page) :
  pageInv pg -> (k < 9)%nat ->
  Gameplay.cellClicked k pg = Some pg' ->
  gameStep (Gameplay.GAME pg) (Z.of_nat k) = Some (Gameplay.GAME pg') /\
  pageInv pg'.
Proof.
  intros Hinv Hk Hclick.
  pose proof Hinv as (Hn & _ & _ & _ & Hh & Hc & _).
  destruct (Gameplay.cells pg !! k) as [c|] eqn:Hcell.
  2:{ apply lookup_ge_None in Hcell. rewrite (nineCells_length _ Hn) in Hcell. lia. }
  unfold gameStep. rewrite Hh.
  destruct (gameOver (Gameplay.GAME pg)) eqn:Hg.
  - rewrite (click_over pg k c Hcell Hg) in Hclick. injection Hclick as <-.
    unfold play. rewrite Hg. simpl. rewrite Hg. split; [reflexivity|].
    unfold pageInv in *. simpl. exact Hinv.
  - destruct (isValidSlot (Gameplay.GAME pg) (Z.of_nat k)) eqn:Hv.
    + destruct (click_accepted pg k Hinv Hk Hg Hv)
        as (g1 & pg2 & Hcl & Hg1 & _ & _ & Hinv' & Hrest).
      rewrite Hclick in Hcl. injection Hcl as <-. rewrite <- Hg1.
      split; [|exact Hinv'].
      destruct (gameOver g1) eqn:Hover; [now rewrite Hrest|].
      destruct Hrest as (s & -> & _ & -> & _).
      assert (Hc1 : computerPlayer g1 = "X").
      { rewrite Hg1. rewrite (proj2 (play_marks _ _ _)). exact Hc. }
      now rewrite Hc1.
    + destruct (click_rejected pg k Hinv Hk Hg Hv)
        as (s & pg2 & Hcl & Hbest & _ & HG & _ & _ & Hinv').
      rewrite Hclick in Hcl. injection Hcl as <-.
      split; [|exact Hinv'].
      assert (Hsame : fst (play (Gameplay.GAME pg) (Z.of_nat k) "O")
                      = Gameplay.GAME pg).
      { unfold play. now rewrite Hg, Hv. }
      rewrite Hsame, Hg, Hbest, Hc, HG. reflexivity.
Qed.

Lemma page_invariant (cells0 : list Gameplay.Cell) (feedback0 : string)
    (dnone0 : bool) (pg : Gameplay.Page) :
  nineCells cells0 ->
  Gameplay.pageState cells0 feedback0 dnone0 pg ->
  pageInv pg /\ gameState (Gameplay.GAME pg).
Proof.
  intros Hn Hst.
  induction Hst as [| pg Hst [Hinv Hgs] | pg k pg' Hst [Hinv Hgs] Hk Hclick].
  - split.
    + apply restart_pageInv; [exact Hn | reflexivity | reflexivity].
    + apply (game_reset constructor). apply game_new.
  - destruct Hinv as (Hn' & _ & _ & _ & Hh & Hc & _). split.
    + apply restart_pageInv; assumption.
    + now apply game_reset.
  - pose proof Hinv as (Hn' & _).
    rewrite (nineCells_length _ Hn') in Hk.
    destruct (cellClicked_gameStep pg k pg' Hinv Hk Hclick) as [Hstep Hinv'].
    split; [exact Hinv'|]. exact (game_step _ _ _ Hgs Hstep).
Qed.

Lemma examplePageClicked_state :
  Gameplay.pageState exampleCells "" false examplePageClicked.
Proof.
  apply (Gameplay.page_click exampleCells "" false examplePage 4).
  - apply Gameplay.page_loaded.
  - simpl. lia.
  - vm_compute. reflexivity.
Qed.

Lemma sync_lookup (pg : Gameplay.Page) (k : nat) (c : Gameplay.Cell) :
  map Gameplay.textContent (Gameplay.cells pg) = board (Gameplay.GAME pg) ->
  Gameplay.cells pg !! k = Some c ->
  board (Gameplay.GAME pg) !! k = Some (Gameplay.textContent c).
Proof.
  intros Hsync Hc. rewrite <- Hsync.
  change (map Gameplay.textContent (Gameplay.cells pg))
    with (Gameplay.textContent <$> Gameplay.cells pg).
  now rewrite list_lookup_fmap, Hc.
Qed.

Lemma statusText_cases (g : TicTacToe) :
  humanPlayer g = "O" -> humanWon g = false ->
  match isGameOver g None with
  | WIN _ _ => statusText g = "Computer won!!"
  | TIE => statusText g = "Game Tie"
  | CONTINUE _ => statusText g = "Game in progress"
  end.
Proof.
  intros Hh Hw. unfold statusText, humanWon in *. rewrite Hh in *.
  destruct (isGameOver g None); [|reflexivity|reflexivity].
  now rewrite Hw.
Qed.

(** ** The page from click to click *)

(** X11. On a document of nine cells with the ids 0 to 8, after loading
    and through every sequence of clicks on cells and on the restart
    button, the cells keep their ids and the text of each cell is the
    content of the board at its index. *)
Theorem cells_show_board (cells0 : list Gameplay.Cell) (feedback0 : string)
    (dnone0 : bool) (pg : Gameplay.Page) :
  nineCells cells0 ->
  Gameplay.pageState cells0 feedback0 dnone0 pg ->
  map Gameplay.id (Gameplay.cells pg) = [0; 1; 2; 3; 4; 5; 6; 7; 8] /\
  map Gameplay.textContent (Gameplay.cells pg) = board (Gameplay.GAME pg).
Proof.
  intros Hn Hst.
  destruct (page_invariant _ _ _ _ Hn Hst) as [(Hn' & Hsync & _) _]. auto.
Qed.

Lemma cells_show_board_witness :
  nineCells exampleCells /\
  Gameplay.pageState exampleCells "" false examplePageClicked /\
  map Gameplay.id (Gameplay.cells examplePageClicked)
  = [0; 1; 2; 3; 4; 5; 6; 7; 8] /\
  map Gameplay.textContent (Gameplay.cells examplePageClicked)
  = ["X"; ""; ""; ""; "O"; ""; ""; ""; ""] /\
  board (Gameplay.GAME examplePageClicked)
  = ["X"; ""; ""; ""; "O"; ""; ""; ""; ""].
Proof.
  assert (Hn : nineCells exampleCells) by reflexivity.
  pose proof examplePageClicked_state as Hst.
  split; [exact Hn|]. split; [exact Hst|].
  destruct (cells_show_board exampleCells "" false examplePageClicked Hn Hst)
    as [Hid Htext].
  split; [exact Hid|]. split; reflexivity.
Defined.

(** X12. On such a document the feedback box always tells the state of
    the game: the title "Tic Tac Toe" while the board is empty, and once a
    mark is on the board "Game in progress", "Game Tie" or "Computer won!!"
    according to what [isGameOver] says of the board. *)
Theorem feedback_shows_status (cells0 : list Gameplay.Cell) (feedback0 : string)
    (dnone0 : bool) (pg : Gameplay.Page) :
  nineCells cells0 ->
  Gameplay.pageState cells0 feedback0 dnone0 pg ->
  (board (Gameplay.GAME pg) = emptyBoard ->
   Gameplay.feedbackBox pg = "Tic Tac Toe") /\
  (board (Gameplay.GAME pg) <> emptyBoard ->
   match isGameOver (Gameplay.GAME pg) None with
   | WIN _ _ => Gameplay.feedbackBox pg = "Computer won!!"
   | TIE => Gameplay.feedbackBox pg = "Game Tie"
   | CONTINUE _ => Gameplay.feedbackBox pg = "Game in progress"
   end).
Proof.
  intros Hn Hst.
  destruct (page_invariant _ _ _ _ Hn Hst)
    as [(_ & _ & _ & _ & Hh & _ & Hfb & _) Hgs].
  destruct (gameState_facts _ Hgs) as (Hw & _).
  split.
  - intros He. destruct Hfb as [[Hf _] | [_ Hne]]; [exact Hf | contradiction].
  - intros Hne. destruct Hfb as [[_ He] | [Hf _]]; [contradiction|].
    rewrite Hf. apply statusText_cases; assumption.
Qed.

Lemma feedback_shows_status_witness :
  nineCells exampleCells /\
  Gameplay.pageState exampleCells "" false examplePageClicked /\
  Gameplay.feedbackBox examplePage = "Tic Tac Toe" /\
  Gameplay.feedbackBox examplePageClicked = "Game in progress" /\
  (board (Gameplay.GAME examplePageClicked) <> emptyBoard ->
   match isGameOver (Gameplay.GAME examplePageClicked) None with
   | WIN _ _ => Gameplay.feedbackBox examplePageClicked = "Computer won!!"
   | TIE => Gameplay.feedbackBox examplePageClicked = "Game Tie"
   | CONTINUE _ => Gameplay.feedbackBox examplePageClicked = "Game in progress"
   end).
Proof.
  assert (Hn : nineCells exampleCells) by reflexivity.
  pose proof examplePageClicked_state as Hst.
  split; [exact Hn|]. split; [exact Hst|].
  split; [reflexivity|]. split; [reflexivity|].
  exact (proj2 (feedback_shows_status exampleCells "" false
                  examplePageClicked Hn Hst)).
Defined.

(** X13. On such a document, whatever cells are clicked and whenever the
    game is restarted, the human player never wins: every win that
    [isGameOver] reports of the board is a win of "X", and the feedback
    box never reads "Human won!!". *)
Theorem human_never_wins (cells0 : list Gameplay.Cell) (feedback0 : string)
    (dnone0 : bool) (pg : Gameplay.Page) :
  nineCells cells0 ->
  Gameplay.pageState cells0 feedback0 dnone0 pg ->
  (forall w l, isGameOver (Gameplay.GAME pg) None = WIN w l -> w = str "X") /\
  Gameplay.feedbackBox pg <> "Human won!!".
Proof.
  intros Hn Hst.
  destruct (page_invariant _ _ _ _ Hn Hst)
    as [(_ & _ & _ & _ & Hh & _ & Hfb & _) Hgs].
  split.
  - intros w l Hw. exact (computer_never_loses _ Hgs w l Hw).
  - destruct (gameState_facts _ Hgs) as (Hw & _).
    destruct Hfb as [[-> _] | [-> _]]; [discriminate|].
    pose proof (statusText_cases _ Hh Hw) as Hs.
    destruct (isGameOver (Gameplay.GAME pg) None); rewrite Hs; discriminate.
Qed.

Lemma human_never_wins_witness :
  nineCells exampleCells /\
  Gameplay.pageState exampleCells "" false examplePageClicked /\
  (forall w l, isGameOver (Gameplay.GAME examplePageClicked) None = WIN w l ->
               w = str "X") /\
  Gameplay.feedbackBox examplePageClicked <> "Human won!!".
Proof.
  assert (Hn : nineCells exampleCells) by reflexivity.
  pose proof examplePageClicked_state as Hst.
  split; [exact Hn|]. split; [exact Hst|].
  exact (human_never_wins exampleCells "" false examplePageClicked Hn Hst).
Defined.

(** X14. On such a document the restart button is hidden only while the
    board is empty: once a mark is on the board, and so whenever the game
    is over, the button does not carry the class "d-none". *)
Theorem restart_button_shown (cells0 : list Gameplay.Cell) (feedback0 : string)
    (dnone0 : bool) (pg : Gameplay.Page) :
  nineCells cells0 ->
  Gameplay.pageState cells0 feedback0 dnone0 pg ->
  (board (Gameplay.GAME pg) <> emptyBoard ->
   Gameplay.restartGameButton_dnone pg = false) /\
  (gameOver (Gameplay.GAME pg) = true ->
   Gameplay.restartGameButton_dnone pg = false).
Proof.
  intros Hn Hst.
  destruct (page_invariant _ _ _ _ Hn Hst)
    as [(_ & _ & _ & Hfl & _ & _ & _ & Hdn) _].
  assert (H : board (Gameplay.GAME pg) <> emptyBoard ->
              Gameplay.restartGameButton_dnone pg = false).
  { intros Hne. destruct (Gameplay.restartGameButton_dnone pg); [|reflexivity].
    exfalso. apply Hne. now apply Hdn. }
  split; [exact H|].
  intros Hg. apply H. intros He.
  rewrite isGameOver_default, He in Hfl. rewrite Hg in Hfl. discriminate.
Qed.

Lemma restart_button_shown_witness :
  nineCells exampleCells /\
  Gameplay.pageState exampleCells "" false examplePageClicked /\
  Gameplay.restartGameButton_dnone examplePage = true /\
  (board (Gameplay.GAME examplePageClicked) <> emptyBoard ->
   Gameplay.restartGameButton_dnone examplePageClicked = false) /\
  (gameOver (Gameplay.GAME examplePageClicked) = true ->
   Gameplay.restartGameButton_dnone examplePageClicked = false).
Proof.
  assert (Hn : nineCells exampleCells) by reflexivity.
  pose proof examplePageClicked_state as Hst.
  split; [exact Hn|]. split; [exact Hst|]. split; [reflexivity|].
  exact (restart_button_shown exampleCells "" false examplePageClicked Hn Hst).
Defined.

(** X15. A click on a cell when the game is over changes nothing but the
    console: the error of [GAME.play] is logged, and the instance, the
    cells, the feedback box and the restart button are as before. *)
Theorem click_after_game_over (pg : Gameplay.Page) (k : nat) (c : Gameplay.Cell) :
  Gameplay.cells pg !! k = Some c ->
  gameOver (Gameplay.GAME pg) = true ->
  exists pg',
    Gameplay.cellClicked k pg = Some pg' /\
    Gameplay.GAME pg' = Gameplay.GAME pg /\
    Gameplay.cells pg' = Gameplay.cells pg /\
    Gameplay.feedbackBox pg' = Gameplay.feedbackBox pg /\
    Gameplay.restartGameButton_dnone pg' = Gameplay.restartGameButton_dnone pg /\
    Gameplay.gameOverGlobal pg' = Gameplay.gameOverGlobal pg /\
    Gameplay.console pg'
    = Gameplay.console pg ++ [Gameplay.LogError InvalidStateError].
Proof.
  intros Hc Hg. rewrite (click_over pg k c Hc Hg).
  eexists. split; [reflexivity|]. simpl. auto 10.
Qed.

Lemma click_after_game_over_witness :
  let over :=
    {| Gameplay.GAME := {| board := ["X"; "O"; "O"; "X"; ""; "O"; "X"; ""; ""];
                           humanPlayer := "O"; computerPlayer := "X";
                           gameOver := true |};
       Gameplay.cells :=
         map (fun '(i, t) => {| Gameplay.id := i; Gameplay.textContent := t |})
             [(0, "X"); (1, "O"); (2, "O"); (3, "X"); (4, ""); (5, "O");
              (6, "X"); (7, ""); (8, "")];
       Gameplay.feedbackBox := "Computer won!!";
       Gameplay.restartGameButton_dnone := false;
       Gameplay.gameOverGlobal := Some true;
       Gameplay.console := [] |} in
  Gameplay.cells over !! 4%nat
  = Some {| Gameplay.id := 4; Gameplay.textContent := "" |} /\
  gameOver (Gameplay.GAME over) = true /\
  exists pg',
    Gameplay.cellClicked 4 over = Some pg' /\
    Gameplay.GAME pg' = Gameplay.GAME over /\
    Gameplay.cells pg' = Gameplay.cells over /\
    Gameplay.feedbackBox pg' = Gameplay.feedbackBox over /\
    Gameplay.restartGameButton_dnone pg' = Gameplay.restartGameButton_dnone over /\
    Gameplay.gameOverGlobal pg' = Gameplay.gameOverGlobal over /\
    Gameplay.console pg'
    = Gameplay.console over ++ [Gameplay.LogError InvalidStateError].
Proof.
  intros over. split; [reflexivity|]. split; [reflexivity|].
  exact (click_after_game_over over 4 _ eq_refl eq_refl).
Defined.

(** X16. On such a document, a click on a cell that already holds a mark,
    the game not being over, is refused and logged, and yet the computer
    moves: the board gains an "X" on a slot that was empty and nothing
    else changes on it. *)
Theorem rejected_click_computer_moves (cells0 : list Gameplay.Cell)
    (feedback0 : string) (dnone0 : bool) (pg : Gameplay.Page)
    (k : nat) (c : Gameplay.Cell) :
  nineCells cells0 ->
  Gameplay.pageState cells0 feedback0 dnone0 pg ->
  gameOver (Gameplay.GAME pg) = false ->
  Gameplay.cells pg !! k = Some c ->
  Gameplay.textContent c <> "" ->
  exists s pg',
    Gameplay.cellClicked k pg = Some pg' /\
    board (Gameplay.GAME pg) !! s = Some "" /\
    board (Gameplay.GAME pg') = <[s := "X"]> (board (Gameplay.GAME pg)) /\
    Gameplay.console pg'
    = Gameplay.console pg ++ [Gameplay.LogError (InvalidMoveError (Z.of_nat k))].
Proof.
  intros Hn Hst Hg Hc Htext.
  destruct (page_invariant _ _ _ _ Hn Hst) as [Hinv _].
  pose proof Hinv as (Hn' & Hsync & _).
  destruct (nineCells_lookup _ _ _ Hn' Hc) as [Hk _].
  assert (Hv : isValidSlot (Gameplay.GAME pg) (Z.of_nat k) = false).
  { destruct (isValidSlot (Gameplay.GAME pg) (Z.of_nat k)) eqn:E; [|reflexivity].
    apply isValidSlot_true in E as [_ E]. rewrite Nat2Z.id in E.
    rewrite (sync_lookup _ _ _ Hsync Hc) in E. congruence. }
  destruct (click_rejected pg k Hinv Hk Hg Hv)
    as (s & pg' & Hcl & _ & Hs & _ & Hb & Hcon & _).
  exists s, pg'. auto.
Qed.

Lemma rejected_click_computer_moves_witness :
  nineCells exampleCells /\
  Gameplay.pageState exampleCells "" false examplePageClicked /\
  gameOver (Gameplay.GAME examplePageClicked) = false /\
  Gameplay.cells examplePageClicked !! 4%nat
  = Some {| Gameplay.id := 4; Gameplay.textContent := "O" |} /\
  "O" <> "" /\
  exists s pg',
    Gameplay.cellClicked 4 examplePageClicked = Some pg' /\
    board (Gameplay.GAME examplePageClicked) !! s = Some "" /\
    board (Gameplay.GAME pg')
    = <[s := "X"]> (board (Gameplay.GAME examplePageClicked)) /\
    Gameplay.console pg'
    = Gameplay.console examplePageClicked
      ++ [Gameplay.LogError (InvalidMoveError (Z.of_nat 4))].
Proof.
  assert (Hn : nineCells exampleCells) by reflexivity.
  pose proof examplePageClicked_state as Hst.
  assert (Ht : "O" <> "") by discriminate.
  split; [exact Hn|]. split; [exact Hst|]. split; [reflexivity|].
  split; [reflexivity|]. split; [exact Ht|].
  exact (rejected_click_computer_moves exampleCells "" false examplePageClicked
           4 {| Gameplay.id := 4; Gameplay.textContent := "O" |}
           Hn Hst eq_refl eq_refl Ht).
Defined.

(** X17. On such a document, a click on an empty cell, the game not
    being over, puts "O" on the slot of that cell; then either the game is
    over and that is the only change of the board, or the computer puts
    "X" on another slot that was empty. Nothing is logged. *)
Theorem accepted_click_round (cells0 : list Gameplay.Cell)
    (feedback0 : string) (dnone0 : bool) (pg : Gameplay.Page)
    (k : nat) (c : Gameplay.Cell) :
  nineCells cells0 ->
  Gameplay.pageState cells0 feedback0 dnone0 pg ->
  gameOver (Gameplay.GAME pg) = false ->
  Gameplay.cells pg !! k = Some c ->
  Gameplay.textContent c = "" ->
  exists pg',
    Gameplay.cellClicked k pg = Some pg' /\
    board (Gameplay.GAME pg') !! k = Some "O" /\
    Gameplay.console pg' = Gameplay.console pg /\
    (gameOver (Gameplay.GAME pg') = true /\
     board (Gameplay.GAME pg') = <[k := "O"]> (board (Gameplay.GAME pg))
     \/ exists s,
          s <> k /\ board (Gameplay.GAME pg) !! s = Some "" /\
          board (Gameplay.GAME pg')
          = <[s := "X"]> (<[k := "O"]> (board (Gameplay.GAME pg)))).
Proof.
  intros Hn Hst Hg Hc Htext.
  destruct (page_invariant _ _ _ _ Hn Hst) as [Hinv _].
  pose proof Hinv as (Hn' & Hsync & Hlen & _).
  destruct (nineCells_lookup _ _ _ Hn' Hc) as [Hk _].
  assert (Hv : isValidSlot (Gameplay.GAME pg) (Z.of_nat k) = true).
  { apply isValidSlot_true. rewrite Nat2Z.id, Hlen. split; [lia|].
    rewrite (sync_lookup _ _ _ Hsync Hc), Htext. reflexivity. }
  destruct (click_accepted pg k Hinv Hk Hg Hv)
    as (g1 & pg' & Hcl & Hg1 & Hb & Hcon & _ & Hrest).
  assert (Hk1 : board g1 !! k = Some "O").
  { rewrite Hb. apply list_lookup_insert_eq. lia. }
  exists pg'. split; [exact Hcl|].
  destruct (gameOver g1) eqn:Hover.
  - rewrite Hrest. split; [exact Hk1|]. split; [exact Hcon|]. left. auto.
  - destruct Hrest as (s & _ & Hs & _ & Hb').
    assert (Hsk : s <> k) by (intros ->; congruence).
    rewrite Hb'. split; [|split; [exact Hcon|]].
    + rewrite list_lookup_insert_ne by assumption. exact Hk1.
    + right. exists s. split; [exact Hsk|]. split; [|now rewrite Hb].
      rewrite Hb, list_lookup_insert_ne in Hs by congruence. exact Hs.
Qed.

Lemma accepted_click_round_witness :
  nineCells exampleCells /\
  Gameplay.pageState exampleCells "" false examplePageClicked /\
  gameOver (Gameplay.GAME examplePageClicked) = false /\
  Gameplay.cells examplePageClicked !! 8%nat
  = Some {| Gameplay.id := 8; Gameplay.textContent := "" |} /\
  exists pg',
    Gameplay.cellClicked 8 examplePageClicked = Some pg' /\
    board (Gameplay.GAME pg') !! 8%nat = Some "O" /\
    Gameplay.console pg' = Gameplay.console examplePageClicked /\
    (gameOver (Gameplay.GAME pg') = true /\
     board (Gameplay.GAME pg')
     = <[8%nat := "O"]> (board (Gameplay.GAME examplePageClicked))
     \/ exists s,
          s <> 8%nat /\
          board (Gameplay.GAME examplePageClicked) !! s = Some "" /\
          board (Gameplay.GAME pg')
          = <[s := "X"]> (<[8%nat := "O"]>
                            (board (Gameplay.GAME examplePageClicked)))).
Proof.
  assert (Hn : nineCells exampleCells) by reflexivity.
  pose proof examplePageClicked_state as Hst.
  split; [exact Hn|]. split; [exact Hst|]. split; [reflexivity|].
  split; [reflexivity|].
  exact (accepted_click_round exampleCells "" false examplePageClicked
           8 {| Gameplay.id := 8; Gameplay.textContent := "" |}
           Hn Hst eq_refl eq_refl eq_refl).
Defined.

Lemma clear_by_ids (cs cs' : list Gameplay.Cell) :
  map Gameplay.id cs = map Gameplay.id cs' ->
  map (fun cell => {| Gameplay.id := Gameplay.id cell;
                      Gameplay.textContent := "" |}) cs
  = map (fun cell => {| Gameplay.id := Gameplay.id cell;
                        Gameplay.textContent := "" |}) cs'.
Proof.
  revert cs'. induction cs as [|c cs IH]; intros [|c' cs']; simpl;
    try discriminate; [reflexivity|].
  intros [= Hid Hrest]. rewrite Hid. f_equal. now apply IH.
Qed.

(** X18. On such a document, the restart button brings every page back to
    the page as it was loaded, but for the console and the global
    [gameOver]: a new instance, the cells emptied, the title in the
    feedback box and the restart button hidden. *)
Theorem restart_returns_to_loaded (cells0 : list Gameplay.Cell)
    (feedback0 : string) (dnone0 : bool) (pg : Gameplay.Page) :
  nineCells cells0 ->
  Gameplay.pageState cells0 feedback0 dnone0 pg ->
  Gameplay.GAME (Gameplay.restartGame pg) = constructor /\
  Gameplay.cells (Gameplay.restartGame pg)
  = Gameplay.cells (Gameplay.load cells0 feedback0 dnone0) /\
  map Gameplay.textContent (Gameplay.cells (Gameplay.restartGame pg))
  = emptyBoard /\
  Gameplay.feedbackBox (Gameplay.restartGame pg) = "Tic Tac Toe" /\
  Gameplay.restartGameButton_dnone (Gameplay.restartGame pg) = true /\
  Gameplay.console (Gameplay.restartGame pg) = Gameplay.console pg.
Proof.
  intros Hn Hst.
  destruct (page_invariant _ _ _ _ Hn Hst)
    as [(Hn' & _ & _ & _ & Hh & Hc & _) _].
  destruct (restart_pageInv pg Hn' Hh Hc) as (_ & Hsync & _).
  repeat split.
  - simpl. unfold reset, initialize, constructor. simpl. now rewrite Hh, Hc.
  - simpl. apply clear_by_ids. unfold nineCells in *. congruence.
  - rewrite Hsync. reflexivity.
Qed.

Lemma restart_returns_to_loaded_witness :
  nineCells exampleCells /\
  Gameplay.pageState exampleCells "" false examplePageClicked /\
  Gameplay.GAME (Gameplay.restartGame examplePageClicked) = constructor /\
  Gameplay.cells (Gameplay.restartGame examplePageClicked)
  = Gameplay.cells (Gameplay.load exampleCells "" false) /\
  map Gameplay.textContent (Gameplay.cells (Gameplay.restartGame examplePageClicked))
  = emptyBoard /\
  Gameplay.feedbackBox (Gameplay.restartGame examplePageClicked) = "Tic Tac Toe" /\
  Gameplay.restartGameButton_dnone (Gameplay.restartGame examplePageClicked) = true /\
  Gameplay.console (Gameplay.restartGame examplePageClicked)
  = Gameplay.console examplePageClicked.
Proof.
  assert (Hn : nineCells exampleCells) by reflexivity.
  pose proof examplePageClicked_state as Hst.
  split; [exact Hn|]. split; [exact Hst|].
  exact (restart_returns_to_loaded exampleCells "" false examplePageClicked Hn Hst).
Defined.
